(** * Lab_2_4_LR2: linear regression, evaluation metrics and one-hot encoding

    A shallow embedding of [src/Lab_2_4_LR2.py].

    - Python exceptions are the constructors of [exn]; a call that can raise
      returns a [result].
    - numpy arrays are lists with their shape: a 1-D array is a list, a 2-D
      array a record [array2] of its column count and its rows.
    - Floating-point numbers are idealised as real numbers (Stdlib [R]);
      rounding, overflow and underflow are not modelled.  A float division
      by zero, which numpy answers with nan or an infinity, is the value
      [NotFinite].  The theorems below are therefore about what does not
      depend on the arithmetic: the control flow, the shapes, the
      exceptions, the state of the regressor and the formulas a pass
      evaluates.  None of them says which float64 number a formula
      yields.
    - The cells of the encoder's object array are Python ints or strings.
    - The arrays the encoder allocates live in a [heap]; the regressor
      object, numpy's random generator and the standard output make up the
      [world] the regressor's methods run in. *)

From Stdlib Require Import ZArith List String Ascii Reals Lra Lia.
From Stdlib Require Import Permutation Sorted ClassicalEpsilon OrderedTypeEx.
From stdpp Require Import base option list sorting strings gmap.

Set Default Proof Using "Type".

(* ================================================================= *)
(** ** Python exceptions and results *)

Inductive exn : Type :=
| ValueError (msg : string)   (* [raise ValueError(msg)] in the source *)
| ShapeError                  (* numpy's ValueError for operands whose shapes do not agree *)
| IndexError                  (* an index out of bounds, or too many indices *)
| TypeError                   (* an operator applied to unsupported operands *)
| ZeroDivisionError           (* Python's division by the int 0 *)
| LinAlgError.                (* numpy.linalg: singular or non-square matrix *)

Inductive result (A : Type) : Type :=
| Ok (a : A)
| Raise (e : exn).
Arguments Ok {A} a.
Arguments Raise {A} e.

#[global] Instance result_ret : MRet result := fun A a => Ok a.

#[global] Instance result_bind : MBind result := fun A B k r =>
  match r with
  | Ok a => k a
  | Raise e => Raise e
  end.

(** Code that reads and writes a state of type [S] and can raise: the
    state an exception leaves behind is kept. *)
Definition ST (S A : Type) : Type := S → result A * S.

#[global] Instance ST_ret {S} : MRet (ST S) := fun A a s => (Ok a, s).

#[global] Instance ST_bind {S} : MBind (ST S) := fun A B k m s =>
  match m s with
  | (Ok a, s') => k a s'
  | (Raise e, s') => (Raise e, s')
  end.

Definition lift {S A} (r : result A) : ST S A := fun s => (r, s).

(** A [for] loop that rebinds one variable. *)
Fixpoint for_each {S A B} (body : B → A → ST S B) (l : list A) (acc : B) : ST S B :=
  match l with
  | [] => mret acc
  | x :: l' => acc' ← body acc x; for_each body l' acc'
  end.

(* ================================================================= *)
(** ** numpy arrays *)

Record array2 (A : Type) : Type := Array2 {
  ncols : nat;               (* shape[1] *)
  rows : list (list A)       (* shape[0] = length rows *)
}.
Arguments Array2 {A} ncols rows.
Arguments ncols {A} a.
Arguments rows {A} a.

Definition nrows {A} (a : array2 A) : nat := length (rows a).

(** Every row of a numpy array has [shape[1]] entries. *)
Definition wf {A} (a : array2 A) : Prop :=
  Forall (fun r => length r = ncols a) (rows a).

Inductive ndarray (A : Type) : Type :=
| Nd1 (v : list A)
| Nd2 (a : array2 A).
Arguments Nd1 {A} v.
Arguments Nd2 {A} a.

Section Indexing.
Context {A : Type}.

(** An integer index into an axis of length [len]: Python counts a
    negative index from the end, and numpy raises [IndexError] outside
    [-len, len). *)
Definition norm_index (len : nat) (i : Z) : result nat :=
  if decide (0 ≤ i < Z.of_nat len)%Z then Ok (Z.to_nat i)
  else if decide (- Z.of_nat len ≤ i < 0)%Z then Ok (Z.to_nat (i + Z.of_nat len))
  else Raise IndexError.

(** The bound of a slice [:i] or [i:] on an axis of length [len]: a
    negative bound counts from the end, and the bound is clipped to
    [0, len]. *)
Definition slice_bound (len : nat) (i : Z) : nat :=
  if decide (i < 0)%Z then Z.to_nat (Z.max 0 (i + Z.of_nat len))
  else Z.to_nat (Z.min i (Z.of_nat len)).

Definition column (j : nat) (a : array2 A) : list A :=
  omap (fun r => r !! j) (rows a).

(** [a[:, i]] *)
Definition getcol (a : array2 A) (i : Z) : result (list A) :=
  j ← norm_index (ncols a) i;
  Ok (column j a).

(** [np.delete(a, i, axis=1)] *)
Definition np_delete (a : array2 A) (i : Z) : result (array2 A) :=
  j ← norm_index (ncols a) i;
  Ok (Array2 (ncols a - 1) (map (delete j) (rows a))).

(** [a[:, :i]] *)
Definition cols_before (a : array2 A) (i : Z) : array2 A :=
  let b := slice_bound (ncols a) i in
  Array2 b (map (take b) (rows a)).

(** [a[:, i:]] *)
Definition cols_from (a : array2 A) (i : Z) : array2 A :=
  let b := slice_bound (ncols a) i in
  Array2 (ncols a - b) (map (drop b) (rows a)).

(** [np.transpose(a)] *)
Definition transpose (a : array2 A) : array2 A :=
  Array2 (nrows a) (map (fun j => column j a) (seq 0 (ncols a))).

(** [v[i]] on a 1-D array, for a literal index [i >= 0]. *)
Definition item (v : list A) (i : nat) : result A :=
  match v !! i with
  | Some x => Ok x
  | None => Raise IndexError
  end.

(** Elementwise [f] on two 1-D arrays under numpy's broadcasting: equal
    lengths pair up, an array of length 1 is stretched, anything else
    raises. *)
Definition broadcast2 {B} (f : A → A → B) (u v : list A) : result (list B) :=
  if decide (length u = length v) then Ok (zip_with f u v)
  else match u, v with
       | [x], _ => Ok (map (f x) v)
       | _, [y] => Ok (map (fun x => f x y) u)
       | _, _ => Raise ShapeError
       end.

(** [np.array(l)] for a list [l] of equally long lists: the empty list
    gives a 1-D array of shape (0,), a list of [n > 0] lists of length
    [k] a 2-D array of shape (n, k). *)
Definition np_array_of_lists (l : list (list A)) : ndarray A :=
  match l with
  | [] => Nd1 []
  | r :: _ => Nd2 (Array2 (length r) l)
  end.

(** [np.hstack((a, x1, ..., xn))] with a 2-D first element [a]:
    concatenation along axis 1, which wants every element 2-D and of
    [a]'s row count. *)
Fixpoint np_hstack (a : array2 A) (xs : list (ndarray A)) : result (array2 A) :=
  match xs with
  | [] => Ok a
  | Nd1 _ :: _ => Raise ShapeError
  | Nd2 b :: xs' =>
      if decide (nrows a = nrows b)
      then np_hstack (Array2 (ncols a + ncols b) (zip_with app (rows a) (rows b))) xs'
      else Raise ShapeError
  end.
End Indexing.

(* ================================================================= *)
(** ** Cells of an object array *)

Inductive cell : Type :=
| CInt (z : Z)         (* a Python int *)
| CStr (s : string).   (* a Python str *)

#[global] Instance cell_eq_dec : EqDecision cell.
Proof. solve_decision. Defined.

(** Python's [==] on ints and strs: equal values of the same type. *)
Definition py_eq (x y : cell) : bool := bool_decide (x = y).

Definition is_int (x : cell) : bool :=
  match x with CInt _ => true | CStr _ => false end.

Definition is_str (x : cell) : bool :=
  match x with CInt _ => false | CStr _ => true end.

(** The values of a column can be sorted when Python's [<] is defined on
    every pair of them: all ints, or all strs.  Sorting a column that
    holds both compares an int with a str at some point, and that
    comparison raises [TypeError]. *)
Definition sortable (col : list cell) : bool :=
  forallb is_int col || forallb is_str col.

(** Python's [<=] where it is defined: the order of the integers, and
    the lexicographic order of strings.  (An int is put before a str to
    make the relation total; [np_unique] never sorts such a pair.) *)
Definition cell_le (x y : cell) : Prop :=
  match x, y with
  | CInt a, CInt b => (a ≤ b)%Z
  | CStr s, CStr t => String.leb s t = true
  | CInt _, CStr _ => True
  | CStr _, CInt _ => False
  end.

#[global] Instance cell_le_dec : RelDecision cell_le.
Proof. intros [a|s] [b|t]; simpl; apply _. Defined.

(** The mask [aux[1:] != aux[:-1]] of [np.unique]: an entry is kept
    when it differs from the one before it. *)
Fixpoint uniq_from (prev : cell) (l : list cell) : list cell :=
  match l with
  | [] => []
  | y :: l' => if py_eq y prev then uniq_from prev l' else y :: uniq_from y l'
  end.

Definition uniq_sorted (l : list cell) : list cell :=
  match l with
  | [] => []
  | x :: l' => x :: uniq_from x l'
  end.

(** [np.unique(col)] on a 1-D object array: sort, then keep the first
    entry of every run of equal entries. *)
Definition np_unique (col : list cell) : result (list cell) :=
  if sortable col then Ok (uniq_sorted (merge_sort cell_le col))
  else Raise TypeError.

(** [sorted(l, reverse=True)] on Python ints. *)
Definition sorted_reverse (l : list Z) : list Z :=
  merge_sort Z.ge l.

(* ================================================================= *)
(** ** The heap of 2-D object arrays *)

Abbreviation heap := (list (array2 cell)) (only parsing).
Abbreviation ref := nat (only parsing).

Abbreviation M := (ST heap).

(** A new array object. *)
Definition alloc (a : array2 cell) : M ref :=
  fun h => (Ok (length h), h ++ [a]).

(** The array a reference points to.  (A reference a Python program
    holds always points to an object; the error is never reached from a
    reference into the heap.) *)
Definition deref (r : ref) : M (array2 cell) :=
  fun h => match h !! r with
           | Some a => (Ok a, h)
           | None => (Raise (ValueError "dangling reference"), h)
           end.

(* ================================================================= *)
(** ** one_hot_encode *)

Section Encoder.

(** [[1 if element == value else 0 for value in unique_values]] *)
Definition indicators (unique_values : list cell) (element : cell) : list cell :=
  map (fun value => if py_eq element value then CInt 1 else CInt 0) unique_values.

(** The body of the loop of [one_hot_encode]. *)
Definition encode_column (drop_first : bool) (X_transformed : ref) (index : Z) : M ref :=
  a ← deref X_transformed;
  categorical_column ← lift (getcol a index);
  unique_values ← lift (np_unique categorical_column);
  let unique_values := if drop_first then drop 1 unique_values else unique_values in
  let one_hots :=
    np_array_of_lists (map (indicators unique_values) categorical_column) in
  d ← lift (np_delete a index);
  X_transformed ← alloc d;
  d ← deref X_transformed;
  s ← lift (np_hstack (cols_before d index) [one_hots; Nd2 (cols_from d index)]);
  alloc s.

Definition one_hot_encode (X : ref) (categorical_indices : list Z)
    (drop_first : bool) : M ref :=
  a ← deref X;
  X_transformed ← alloc a;      (* np.array(X, dtype=object) copies X *)
  for_each (encode_column drop_first) (sorted_reverse categorical_indices) X_transformed.
End Encoder.

(* ================================================================= *)
(** ** Numeric arrays *)

#[global] Instance R_eq_dec : EqDecision R := Req_dec_T.

(** A float that may be nan or an infinity. *)
Inductive float64 : Type :=
| Finite (r : R)
| NotFinite.

Section Numeric.
Local Open Scope R_scope.

(** [np.sum(v)] *)
Definition np_sum (v : list R) : R := foldr Rplus 0 v.

(** [np.mean(v)]: nan on an empty array. *)
Definition np_mean (v : list R) : float64 :=
  match v with
  | [] => NotFinite
  | _ => Finite (np_sum v / INR (length v))
  end.

Definition dot (u v : list R) : R := np_sum (zip_with Rmult u v).

(** [a @ b] for 2-D [a] and [b] *)
Definition matmul (a b : array2 R) : result (array2 R) :=
  if decide (ncols a = nrows b)
  then Ok (Array2 (ncols b)
             (map (fun r => map (dot r) (rows (transpose b))) (rows a)))
  else Raise ShapeError.

(** [a @ v] and [np.dot(a, v)] for 2-D [a] and 1-D [v] *)
Definition matvec (a : array2 R) (v : list R) : result (list R) :=
  if decide (ncols a = length v)
  then Ok (map (fun r => dot r v) (rows a))
  else Raise ShapeError.

Definition identity (n : nat) : array2 R :=
  Array2 n (map (fun i => map (fun j => if (i =? j)%nat then 1 else 0) (seq 0 n))
                (seq 0 n)).

(** [gi] is the n x n matrix with [g @ gi = gi @ g = I]. *)
Definition is_inverse (g gi : array2 R) : Prop :=
  ncols g = nrows g ∧ wf gi ∧
  matmul g gi = Ok (identity (nrows g)) ∧
  matmul gi g = Ok (identity (nrows g)).

(** [np.linalg.inv(g)]: the inverse of a square matrix that has one;
    [LinAlgError] for a singular or a non-square matrix.  (The exact
    inverse stands for the matrix LAPACK computes in float64; what is
    proved with it is that the result has the shape of [g], and that a
    matrix with a row of zeros raises.) *)
Definition linalg_inv (g : array2 R) : result (array2 R) :=
  match excluded_middle_informative (∃ gi, is_inverse g gi) with
  | left H => Ok (proj1_sig (constructive_indefinite_description _ H))
  | right _ => Raise LinAlgError
  end.

(** [v.reshape(-1, 1)] on a 1-D array *)
Definition reshape_column (v : list R) : array2 R :=
  Array2 1 (map (fun x => [x]) v).

(** [np.insert(a, 0, 1, axis=1)] *)
Definition insert_ones (a : array2 R) : array2 R :=
  Array2 (S (ncols a)) (map (cons 1) (rows a)).

(** [p / n] for Python ints [p] and [n = len(...)] *)
Definition py_div (p : Z) (n : nat) : result R :=
  if decide (n = 0%nat) then Raise ZeroDivisionError
  else Ok (IZR p / INR n).
End Numeric.

(* ================================================================= *)
(** ** LinearRegressor *)

Record LinearRegressor : Type := Regressor {
  coefficients : option (list R);   (* [None] until fitted *)
  intercept : option R
}.

(** What a method of the regressor can read and write: the object
    itself, the stream of numbers numpy's generator will draw (each in
    [0, 1)), and the epochs and losses printed so far. *)
Record world : Type := World {
  self : LinearRegressor;
  rng : nat → R;
  stdout : list (Z * float64)
}.

Abbreviation W := (ST world).

(** [LinearRegressor()] *)
Definition init : LinearRegressor := Regressor None None.

Definition rng_ok (w : world) : Prop := ∀ i, (0 <= rng w i < 1)%R.

Section Regressor.
Local Open Scope R_scope.

Definition set_coefficients (c : list R) : W () := fun w =>
  (Ok (), World (Regressor (Some c) (intercept (self w))) (rng w) (stdout w)).

Definition set_intercept (b : R) : W () := fun w =>
  (Ok (), World (Regressor (coefficients (self w)) (Some b)) (rng w) (stdout w)).

(** [np.random.rand(k)] *)
Definition random_rand_n (k : nat) : W (list R) := fun w =>
  (Ok (map (rng w) (seq 0 k)),
   World (self w) (fun i => rng w (k + i)%nat) (stdout w)).

(** [np.random.rand()] *)
Definition random_rand : W R := fun w =>
  (Ok (rng w 0%nat), World (self w) (fun i => rng w (S i)) (stdout w)).

(** [print(f"Epoch {epoch}: MSE = {mse}")] *)
Definition print_loss (epoch : Z) (mse : float64) : W () := fun w =>
  (Ok (), World (self w) (rng w) (stdout w ++ [(epoch, mse)])).

(** [x -= d] on an attribute holding a float, [TypeError] on [None]. *)
Definition isub_intercept (d : R) : W () := fun w =>
  match intercept (self w) with
  | Some b => set_intercept (b - d) w
  | None => (Raise TypeError, w)
  end.

(** [x -= d] on an attribute holding a 1-D array: [d] must have the
    length of the array, or length 1. *)
Definition isub_coefficients (d : list R) : W () := fun w =>
  match coefficients (self w) with
  | Some c =>
      if decide (length c = length d)
      then set_coefficients (zip_with Rminus c d) w
      else match d with
           | [x] => set_coefficients (map (fun ci => ci - x) c) w
           | _ => (Raise ShapeError, w)
           end
  | None => (Raise TypeError, w)
  end.

Definition predict (X : ndarray R) : W (list R) := fun w =>
  match coefficients (self w), intercept (self w) with
  | Some c, Some b =>
      match X with
      | Nd1 x => (p ← broadcast2 Rmult c x; Ok (map (Rplus b) p), w)
      | Nd2 a => (p ← matvec a c; Ok (map (Rplus b) p), w)
      end
  | _, _ => (Raise (ValueError "Model is not yet fitted"), w)
  end.

Definition fit_multiple (X : array2 R) (y : list R) : W () :=
  let X_transpose := transpose X in
  g ← lift (matmul X_transpose X);
  gi ← lift (linalg_inv g);
  p ← lift (matmul gi X_transpose);
  beta ← lift (matvec p y);
  b0 ← lift (item beta 0);
  set_intercept b0;;
  set_coefficients (drop 1 beta).

(** One pass of the loop of [fit_gradient_descent]. *)
Definition gradient_step (X : array2 R) (y : list R) (n : nat)
    (learning_rate : R) (_ : ()) (epoch : Z) : W () :=
  predictions ← predict (Nd2 (cols_from X 1));
  error ← lift (broadcast2 Rminus predictions y);
  c ← lift (py_div 2 n);
  let gradient_intercept := c * np_sum error in
  g ← lift (matvec (transpose (cols_from X 1)) error);
  let gradient_coefficients := map (Rmult c) g in
  isub_intercept (learning_rate * gradient_intercept);;
  isub_coefficients (map (Rmult learning_rate) gradient_coefficients);;
  if decide (epoch mod 100 = 0)%Z
  then print_loss epoch (np_mean (map (fun e => e ^ 2) error))
  else mret ().

(** [range(k)] *)
Definition range (k : Z) : list Z := map Z.of_nat (seq 0 (Z.to_nat k)).

Definition fit_gradient_descent (X : array2 R) (y : list R)
    (learning_rate : R) (iterations : Z) : W () :=
  let n := length y in
  match ncols X with
  | O => lift (Raise (ValueError "negative dimensions are not allowed"))
  | S k =>
      r ← random_rand_n k;
      set_coefficients (map (fun x => x * 0.01) r);;
      r ← random_rand;
      set_intercept (r * 0.01);;
      for_each (gradient_step X y n learning_rate) (range iterations) ()
  end.

Definition fit (X : ndarray R) (y : list R) (method : string)
    (learning_rate : R) (iterations : Z) : W () :=
  if negb (bool_decide (method ∈ ["least_squares"; "gradient_descent"]))
  then lift (Raise (ValueError
         ("Method " +:+ method +:+ " not available for training linear regression.")))
  else
    let X := match X with
             | Nd1 v => reshape_column v
             | Nd2 a => a
             end in
    let X_with_bias := insert_ones X in
    if bool_decide (method = "least_squares")
    then fit_multiple X_with_bias y
    else if bool_decide (method = "gradient_descent")
    then fit_gradient_descent X_with_bias y learning_rate iterations
    else mret ().
End Regressor.

(* ================================================================= *)
(** ** evaluate_regression *)

Section Evaluator.
Local Open Scope R_scope.

(** [(y - np.mean(y)) ** 2], elementwise.  The mean of an empty array is
    nan, and subtracting it from the empty array gives the empty array. *)
Definition squared_deviations (y : list R) : list R :=
  match np_mean y with
  | Finite m => map (fun v => (v - m) ^ 2) y
  | NotFinite => []
  end.

(** [1 - rss / tss] on numpy floats: no exception when [tss] is 0. *)
Definition one_minus_ratio (rss tss : R) : float64 :=
  if decide (tss = 0) then NotFinite else Finite (1 - rss / tss).

Definition evaluate_regression (y_true y_pred : list R)
    : result (gmap string float64) :=
  let n := length y_true in
  d ← broadcast2 Rminus y_true y_pred;
  let rss := np_sum (map (fun e => e ^ 2) d) in
  let tss := np_sum (squared_deviations y_true) in
  let r_squared := one_minus_ratio rss tss in
  c ← py_div 1 n;
  let mse := c * np_sum (map (fun e => e ^ 2) d) in
  let rmse := sqrt mse in
  let mae := c * np_sum (map Rabs d) in
  Ok (<["MAE" := Finite mae]> (<["RMSE" := Finite rmse]> (<["R2" := r_squared]> ∅))).
End Evaluator.

(* ================================================================= *)
(** ** The encoder's result, written out *)

(** Strictly before, in the order [np.unique] sorts by. *)
Definition cell_lt (x y : cell) : Prop := cell_le x y ∧ x ≠ y.

(** The values [np.unique] returns for a column: sorted, once each. *)
Definition unique_values (col : list cell) : list cell :=
  uniq_sorted (merge_sort cell_le col).

(** The values a designated column gets an indicator for. *)
Definition levels (drop_first : bool) (col : list cell) : list cell :=
  if drop_first then drop 1 (unique_values col) else unique_values col.

(** A row with the cell at column [j] replaced by its indicators. *)
Definition splice_row (j : nat) (lv : list cell) (row : list cell) : list cell :=
  take j row
  ++ match row !! j with
     | Some x => indicators lv x
     | None => []
     end
  ++ drop (S j) row.

(** A row after a pass with a negative index that names column [j]:
    the cell of column [j] is removed and its indicators are put in one
    column further left than it stood, so that the cell of column
    [j − 1] follows them; for the first column there is nothing to its
    left, and the indicators stand in its place. *)
Definition splice_row_negative (j : nat) (lv : list cell) (row : list cell)
    : list cell :=
  match j with
  | O => splice_row 0 lv row
  | S p =>
      take p row
      ++ match row !! j with
         | Some x => indicators lv x
         | None => []
         end
      ++ match row !! p with
         | Some y => [y]
         | None => []
         end
      ++ drop (S j) row
  end.

(** The table with column [j] replaced by its indicator columns. *)
Definition encode_value (drop_first : bool) (a : array2 cell) (j : nat) : array2 cell :=
  let lv := levels drop_first (column j a) in
  Array2 (ncols a - 1 + length lv) (map (splice_row j lv) (rows a)).

Fixpoint encode_all (drop_first : bool) (a : array2 cell) (l : list Z) : array2 cell :=
  match l with
  | [] => a
  | i :: l' => encode_all drop_first (encode_value drop_first a (Z.to_nat i)) l'
  end.

(** Every pass finds its index in range and its column sortable. *)
Fixpoint steps_ok (drop_first : bool) (a : array2 cell) (l : list Z) : Prop :=
  match l with
  | [] => True
  | i :: l' =>
      (0 ≤ i < Z.of_nat (ncols a))%Z ∧
      sortable (column (Z.to_nat i) a) = true ∧
      steps_ok drop_first (encode_value drop_first a (Z.to_nat i)) l'
  end.

(** The sum of a row of indicator cells. *)
Definition int_of (x : cell) : Z :=
  match x with
  | CInt z => z
  | CStr _ => 0
  end.

Definition cell_sum (l : list cell) : Z := foldr (fun x acc => (int_of x + acc)%Z) 0%Z l.

(** The cells of a row that came from column [j]: its indicators. *)
Definition indicator_block (j width : nat) (row : list cell) : list cell :=
  take width (drop j row).

(** A row of the encoded table, column by column from the left: a
    designated column contributes the indicators of its cell, any other
    column the cell itself.  [L j] is the list of values column [j] gets
    indicators for, when it is designated; [off] is the column the row
    starts at. *)
Fixpoint expand (L : nat → option (list cell)) (off : nat) (row : list cell)
    : list cell :=
  match row with
  | [] => []
  | x :: row' =>
      match L off with
      | Some lv => indicators lv x
      | None => [x]
      end ++ expand L (S off) row'
  end.

Definition designated (drop_first : bool) (a : array2 cell) (indices : list Z)
    (j : nat) : option (list cell) :=
  if bool_decide (Z.of_nat j ∈ indices) then Some (levels drop_first (column j a))
  else None.

(** The number of columns a column of the input becomes. *)
Definition width (o : option (list cell)) : nat :=
  match o with
  | Some lv => length lv
  | None => 1
  end.

(** The number of columns the [n] columns from column [off] on become. *)
Fixpoint position_from (L : nat → option (list cell)) (off n : nat) : nat :=
  match n with
  | O => O
  | S n' => (width (L off) + position_from L (S off) n')%nat
  end.

(** Where column [j] of the input starts in the encoded table. *)
Definition column_position (L : nat → option (list cell)) (j : nat) : nat :=
  position_from L 0 j.

(* ================================================================= *)
(** ** The regressor's results, written out *)

Section Written.
Local Open Scope R_scope.

(** The values [fit_gradient_descent] starts from, for [k] features:
    the first [k] draws give the coefficients, the next one the
    intercept. *)
Definition initial_coefficients (w : world) (k : nat) : list R :=
  map (fun x => x * 0.01) (map (rng w) (seq 0 k)).

Definition initial_intercept (w : world) (k : nat) : R :=
  rng w (k + 0)%nat * 0.01.

(** The world after the initialisation of [fit_gradient_descent]. *)
Definition initial_world (w : world) (k : nat) : world :=
  World (Regressor (Some (initial_coefficients w k)) (Some (initial_intercept w k)))
        (fun i => rng w (k + S i)%nat) (stdout w).

(** [X] as [fit] sees it: a 1-D [X] is one feature column. *)
Definition as_2d (X : ndarray R) : array2 R :=
  match X with
  | Nd1 v => reshape_column v
  | Nd2 a => a
  end.

(** A row vector times a matrix: the entries of one row of [a @ b]. *)
Definition vecmat (r : list R) (b : array2 R) : list R :=
  map (dot r) (rows (transpose b)).

(** Row [i] of the identity matrix, from column [s] on. *)
Definition unit_row (i s n : nat) : list R :=
  map (fun j => if (i =? j)%nat then 1 else 0) (seq s n).
End Written.

(** The update step, as the specification words it. *)

Section GradientStepSpec.
Local Open Scope R_scope.
Variables (a : array2 R) (y : list R) (learning_rate : R).

(** error = (intercept + X·coefficients) − y, over the feature columns
    of [X] only. *)
Definition spec_error (b : R) (c : list R) : list R :=
  zip_with Rminus (map (fun r => b + dot r c) (rows a)) y.

(** Component [j] of Xᵀ·error: the sum over the rows [i] of
    [X[i][j] * error[i]]. *)
Definition spec_xt_error (error : list R) (j : nat) : R :=
  np_sum (zip_with (fun r e => nth j r 0 * e) (rows a) error).

Definition spec_step (bc : R * list R) : R * list R :=
  let '(b, c) := bc in
  let n := INR (length y) in
  let error := spec_error b c in
  (b - learning_rate * (2 / n * np_sum error),
   zip_with (fun cj j => cj - learning_rate * (2 / n * spec_xt_error error j))
            c (seq 0 (ncols a))).
End GradientStepSpec.

(** The lines the loop prints. *)

Section GradientLogSpec.
Local Open Scope R_scope.
Variables (a : array2 R) (y : list R) (learning_rate : R).

(** What one pass of the loop prints: at an epoch divisible by 100, the
    epoch and the mean squared error of the parameters the pass starts
    from. *)
Definition spec_print (epoch : Z) (bc : R * list R) : list (Z * float64) :=
  if decide (epoch mod 100 = 0)%Z
  then [(epoch, np_mean (map (fun e => e ^ 2) (spec_error a y bc.1 bc.2)))]
  else [].

(** What the loop prints over a list of epochs. *)
Fixpoint spec_log (epochs : list Z) (bc : R * list R) : list (Z * float64) :=
  match epochs with
  | [] => []
  | e :: es => spec_print e bc ++ spec_log es (spec_step a y learning_rate bc)
  end.
End GradientLogSpec.

(** ** Regressors that were never fitted *)

(** A call of [fit] with its arguments. *)
Record fit_call : Type := FitCall {
  call_X : ndarray R;
  call_y : list R;
  call_method : string;
  call_learning_rate : R;
  call_iterations : Z
}.

Definition run_fit (c : fit_call) : W () :=
  fit (call_X c) (call_y c) (call_method c) (call_learning_rate c)
      (call_iterations c).

(** The states of a regressor on which no call of [fit] has returned and
    no gradient-descent fit was started: the state the constructor
    leaves, and the state a call of [fit] leaves that raised and did not
    ask for gradient descent. *)
Inductive never_fitted : world → Prop :=
| never_fitted_fresh (r : nat → R) (out : list (Z * float64)) :
    never_fitted (World init r out)
| never_fitted_failed (c : fit_call) (e : exn) (w w' : world) :
    never_fitted w →
    call_method c ≠ "gradient_descent" →
    run_fit c w = (Raise e, w') →
    never_fitted w'.

(* ================================================================= *)
(** * Properties *)

(** ** Sorting the indices *)

#[local] Instance Zge_trans : Transitive Z.ge.
Proof. intros x y z; lia. Qed.

#[local] Instance Zge_total : Total Z.ge.
Proof. intros x y; lia. Qed.

#[local] Instance Zge_antisym : AntiSymm (=) Z.ge.
Proof. intros x y; lia. Qed.

Lemma sorted_reverse_perm (l : list Z) : sorted_reverse l ≡ₚ l.
Proof. apply merge_sort_Permutation. Qed.

Lemma sorted_reverse_sorted (l : list Z) : StronglySorted Z.ge (sorted_reverse l).
Proof. apply StronglySorted_merge_sort; apply _. Qed.

Lemma sorted_reverse_invariant (l1 l2 : list Z) :
  l1 ≡ₚ l2 → sorted_reverse l1 = sorted_reverse l2.
Proof.
  intros Hp. apply (StronglySorted_unique Z.ge); try apply sorted_reverse_sorted.
  now rewrite !sorted_reverse_perm.
Qed.

(** The first index processed is the largest one. *)
Lemma sorted_reverse_head (l : list Z) (i : Z) :
  i ∈ l → ∃ m rest, sorted_reverse l = m :: rest ∧ (i ≤ m)%Z.
Proof.
  intros Hi. pose proof (sorted_reverse_sorted l) as Hs.
  rewrite <- sorted_reverse_perm in Hi.
  destruct (sorted_reverse l) as [|m rest]; [by apply elem_of_nil in Hi|].
  exists m, rest. split; [done|].
  apply StronglySorted_inv in Hs as [_ Hall].
  apply elem_of_cons in Hi as [->|Hi]; [lia|].
  rewrite Forall_forall in Hall. specialize (Hall _ Hi). lia.
Qed.

(** ** The regressor *)

Lemma method_not_available (method : string) :
  method ≠ "least_squares" → method ≠ "gradient_descent" →
  bool_decide (method ∈ ["least_squares"; "gradient_descent"]) = false.
Proof.
  intros H1 H2. apply bool_decide_eq_false. intros Hin.
  repeat (apply elem_of_cons in Hin as [?|Hin]; [done|]).
  by apply elem_of_nil in Hin.
Qed.

(** C6: a method string other than "least_squares" and "gradient_descent"
    makes [fit] raise its ValueError at once: the regressor, the random
    generator and the output are what they were before the call, whatever
    [X], [y] and the fitted or unfitted state. *)
Theorem fit_unknown_method (X : ndarray R) (y : list R) (method : string)
    (learning_rate : R) (iterations : Z) (w : world) :
  method ≠ "least_squares" → method ≠ "gradient_descent" →
  fit X y method learning_rate iterations w =
    (Raise (ValueError
       ("Method " +:+ method +:+ " not available for training linear regression.")),
     w).
Proof.
  intros H1 H2. unfold fit.
  by rewrite (method_not_available method H1 H2).
Qed.

Lemma fit_unknown_method_witness :
  let w := World (Regressor (Some [2%R]) (Some 1%R)) (fun _ => 0%R) [] in
  fit (Nd1 [1%R; 2%R]) [3%R; 5%R] "bogus" 0.01%R 1000 w =
    (Raise (ValueError
       "Method bogus not available for training linear regression."), w).
Proof.
  intros w. apply (fit_unknown_method (Nd1 [1%R; 2%R]) [3%R; 5%R] "bogus");
    intros H; discriminate H.
Defined.

(** C8: the indices are processed in descending order whatever order
    they are supplied in, so two index lists that are permutations of
    each other are processed as the same sequence and [one_hot_encode]
    gives the same result (and the same heap) for both. *)
Theorem one_hot_encode_order_independent (X : ref)
    (indices1 indices2 : list Z) (drop_first : bool) (h : heap) :
  indices1 ≡ₚ indices2 →
  StronglySorted Z.ge (sorted_reverse indices1) ∧
  sorted_reverse indices1 = sorted_reverse indices2 ∧
  one_hot_encode X indices1 drop_first h = one_hot_encode X indices2 drop_first h.
Proof.
  intros Hp. split; [apply sorted_reverse_sorted|].
  pose proof (sorted_reverse_invariant _ _ Hp) as Heq. split; [done|].
  unfold one_hot_encode. by rewrite Heq.
Qed.

Lemma one_hot_encode_order_independent_witness :
  let h := [Array2 3 [[CStr "b"; CInt 7; CStr "x"]; [CStr "a"; CInt 8; CStr "y"]]] in
  one_hot_encode 0 [0; 2]%Z false h = one_hot_encode 0 [2; 0]%Z false h.
Proof.
  intros h.
  apply (one_hot_encode_order_independent 0 [0; 2]%Z [2; 0]%Z false h).
  apply Permutation_swap.
Defined.

(** An index at or beyond the column count stops the first pass of the
    loop: the largest index is processed first and [a[:, index]] raises. *)
Lemma encode_column_index_too_large (drop_first : bool) (h : heap) (r : ref)
    (a : array2 cell) (m : Z) :
  h !! r = Some a → (Z.of_nat (ncols a) ≤ m)%Z →
  encode_column drop_first r m h = (Raise IndexError, h).
Proof.
  intros Hr Hm. unfold encode_column, mbind, ST_bind, deref. rewrite Hr.
  unfold lift, getcol, norm_index.
  rewrite decide_False by lia. rewrite decide_False by lia. done.
Qed.

(** C9 (as amended): an index list that holds an index greater than or
    equal to the number of columns makes [one_hot_encode] raise
    IndexError, before any column is encoded: the heap only gains the copy
    of the input. *)
Theorem one_hot_encode_index_too_large (X : ref) (a : array2 cell)
    (categorical_indices : list Z) (drop_first : bool) (h : heap) (i : Z) :
  h !! X = Some a →
  i ∈ categorical_indices → (Z.of_nat (ncols a) ≤ i)%Z →
  one_hot_encode X categorical_indices drop_first h = (Raise IndexError, h ++ [a]).
Proof.
  intros HX Hi Hbig.
  destruct (sorted_reverse_head _ _ Hi) as (m & rest & Hs & Hm).
  unfold one_hot_encode. rewrite Hs.
  unfold mbind at 1, ST_bind at 1, deref. rewrite HX.
  unfold mbind at 1, ST_bind at 1, alloc. simpl for_each.
  unfold mbind at 1, ST_bind at 1.
  rewrite (encode_column_index_too_large drop_first (h ++ [a]) (length h) a m); [done| |lia].
  rewrite lookup_app_r by lia. by rewrite Nat.sub_diag.
Qed.

Lemma one_hot_encode_index_too_large_witness :
  let a := Array2 2 [[CStr "a"; CInt 5]; [CStr "b"; CInt 6]] in
  one_hot_encode 0 [0; 2]%Z true [a] = (Raise IndexError, [a; a]).
Proof.
  intros a.
  apply (one_hot_encode_index_too_large 0 a [0; 2]%Z true [a] 2%Z).
  - reflexivity.
  - apply list_elem_of_In; simpl; auto.
  - simpl; lia.
Defined.

(** C9 (as stated) fails: -1 is not a 0-based column index of a table of
    two columns, yet [one_hot_encode] accepts it.  Python counts it from
    the end: the last column is encoded (and its indicators are spliced
    in one place to the left of it). *)
Lemma one_hot_encode_accepts_negative_index :
  let a := Array2 2 [[CStr "a"; CInt 5]; [CStr "b"; CInt 6]] in
  wf a ∧ ¬ (0 ≤ -1 < Z.of_nat (ncols a))%Z ∧
  ∃ h', one_hot_encode 0 [-1]%Z false [a] = (Ok 3%nat, h') ∧
        h' !! 3%nat = Some (Array2 3 [[CInt 1; CInt 0; CStr "a"];
                                      [CInt 0; CInt 1; CStr "b"]]).
Proof.
  intros a. split; [by repeat constructor|]. split; [simpl; lia|].
  eexists. split; [vm_compute; reflexivity|reflexivity].
Qed.

(** ** Gradient descent *)

Lemma broadcast2_raise {A B} (f : A → A → B) (u v : list A) (e : exn) :
  broadcast2 f u v = Raise e → e = ShapeError.
Proof.
  unfold broadcast2. destruct (decide _); [discriminate|].
  destruct u as [|x [|x' u]], v as [|y [|y' v]]; simpl; congruence.
Qed.

Lemma broadcast2_same_length {A B} (f : A → A → B) (u v : list A) :
  length u = length v → broadcast2 f u v = Ok (zip_with f u v).
Proof. intros H. unfold broadcast2. by rewrite decide_True. Qed.

Lemma matvec_raise (a : array2 R) (v : list R) (e : exn) :
  matvec a v = Raise e → e = ShapeError.
Proof. unfold matvec. destruct (decide _); congruence. Qed.

Section GradientDescent.
Local Open Scope R_scope.

Lemma initial_coefficients_length w k : length (initial_coefficients w k) = k.
Proof. unfold initial_coefficients. by rewrite !length_map, length_seq. Qed.

Lemma initial_coefficients_range w k :
  rng_ok w → Forall (fun c => 0 <= c < 0.01) (initial_coefficients w k).
Proof.
  intros Hr. unfold initial_coefficients.
  rewrite Forall_map, Forall_map. apply Forall_forall. intros i _.
  specialize (Hr i). lra.
Qed.

Lemma initial_intercept_range w k :
  rng_ok w → 0 <= initial_intercept w k < 0.01.
Proof. intros Hr. unfold initial_intercept. specialize (Hr (k + 0)%nat). lra. Qed.

Lemma fit_gradient_descent_unfold (a : array2 R) (y : list R)
    (learning_rate : R) (iterations : Z) (w : world) :
  fit (Nd2 a) y "gradient_descent" learning_rate iterations w =
  for_each (gradient_step (insert_ones a) y (length y) learning_rate)
           (range iterations) () (initial_world w (ncols a)).
Proof. reflexivity. Qed.
End GradientDescent.

(** C10: with [iterations = 0] the loop of gradient descent is not
    entered, and [fit] still leaves the regressor fitted: coefficients
    and intercept are the random initial values, each in [0, 0.01),
    nothing is printed, a later [predict] on [X] returns the prediction
    of every row, and [predict] on any input no longer raises the
    not-fitted error. *)
Theorem fit_zero_iterations (a : array2 R) (y : list R) (learning_rate : R)
    (w : world) :
  rng_ok w →
  let c0 := initial_coefficients w (ncols a) in
  let b0 := initial_intercept w (ncols a) in
  let w' := initial_world w (ncols a) in
  fit (Nd2 a) y "gradient_descent" learning_rate 0 w = (Ok (), w') ∧
  self w' = Regressor (Some c0) (Some b0) ∧
  length c0 = ncols a ∧
  Forall (fun c => 0 <= c < 0.01)%R c0 ∧ (0 <= b0 < 0.01)%R ∧
  stdout w' = stdout w ∧
  predict (Nd2 a) w' = (Ok (map (fun r => b0 + dot r c0)%R (rows a)), w') ∧
  ∀ X, (predict X w').1 ≠ Raise (ValueError "Model is not yet fitted").
Proof.
  intros Hr c0 b0 w'.
  split; [reflexivity|]. split; [reflexivity|].
  split; [apply initial_coefficients_length|].
  split; [by apply initial_coefficients_range|].
  split; [by apply initial_intercept_range|].
  split; [reflexivity|]. split.
  - unfold predict, w'. simpl. unfold matvec.
    rewrite decide_True by (by rewrite initial_coefficients_length).
    simpl. by rewrite map_map.
  - intros [x|b]; unfold predict, w'; simpl.
    + destruct (broadcast2 _ _ _) as [p|e] eqn:Hb; simpl; [discriminate|].
      by rewrite (broadcast2_raise _ _ _ _ Hb).
    + destruct (matvec _ _) as [p|e] eqn:Hb; simpl; [discriminate|].
      by rewrite (matvec_raise _ _ _ Hb).
Qed.

Lemma fit_zero_iterations_witness :
  let a := Array2 1 [[1%R]; [2%R]] in
  let w := World init (fun _ => (1/2)%R) [] in
  fit (Nd2 a) [3%R; 5%R] "gradient_descent" 0.01%R 0 w =
    (Ok (), initial_world w 1) ∧
  (predict (Nd2 a) (initial_world w 1)).1 ≠
    Raise (ValueError "Model is not yet fitted").
Proof.
  intros a w.
  assert (Hr : rng_ok w) by (intros i; simpl; lra).
  destruct (fit_zero_iterations a [3%R; 5%R] 0.01%R w Hr)
    as (Hfit & _ & _ & _ & _ & _ & _ & Hp).
  split; [exact Hfit|apply Hp].
Defined.

Lemma cols_from_insert_ones (a : array2 R) : cols_from (insert_ones a) 1 = a.
Proof.
  destruct a as [k rs]. unfold cols_from, insert_ones, slice_bound. simpl.
  replace (Z.to_nat (Z.min 1 (Z.of_nat (S k)))) with 1%nat by lia.
  f_equal; [lia|].
  rewrite map_map. simpl. apply map_id.
Qed.

Lemma column_wf {A} (d : A) (j : nat) (a : array2 A) :
  wf a → (j < ncols a)%nat → column j a = map (fun r => nth j r d) (rows a).
Proof.
  unfold wf, column. intros Hwf Hj. induction Hwf as [|r rs Hr _ IH]; [done|].
  simpl. destruct (r !! j) as [x|] eqn:Hx.
  - rewrite (nth_lookup_Some _ _ d _ Hx). simpl. by f_equal.
  - apply lookup_ge_None in Hx. lia.
Qed.

Lemma dot_column (a : array2 R) (error : list R) (j : nat) :
  wf a → (j < ncols a)%nat →
  dot (column j a) error = spec_xt_error a error j.
Proof.
  intros Hwf Hj. rewrite (column_wf 0%R j a Hwf Hj).
  unfold dot, spec_xt_error. f_equal.
  generalize (rows a) error. induction l as [|r rs IH]; intros [|e es]; simpl; [done..|].
  by rewrite IH.
Qed.

Lemma zip_with_map_r {A B C D} (f : A → B → C) (g : D → B) (l : list A) (k : list D) :
  zip_with f l (map g k) = zip_with (fun x z => f x (g z)) l k.
Proof.
  revert k. induction l as [|x l IH]; intros [|z k]; simpl; [done..|]. by rewrite IH.
Qed.

Section GradientDescentLoop.
Local Open Scope R_scope.
Variables (a : array2 R) (y : list R) (learning_rate : R).
Hypothesis a_wf : wf a.
Hypothesis y_rows : nrows a = length y.
Hypothesis y_nonempty : (0 < length y)%nat.

(** One pass of the loop is one [spec_step]. *)
Lemma gradient_step_spec (b : R) (c : list R) (r : nat → R)
    (out : list (Z * float64)) (epoch : Z) :
  length c = ncols a →
  ∃ out',
    gradient_step (insert_ones a) y (length y) learning_rate () epoch
      (World (Regressor (Some c) (Some b)) r out) =
    (Ok (), World (Regressor (Some (spec_step a y learning_rate (b, c)).2)
                             (Some (spec_step a y learning_rate (b, c)).1)) r out').
Proof using a_wf y_rows y_nonempty.
  intros Hc. unfold gradient_step. rewrite cols_from_insert_ones.
  unfold mbind at 1, ST_bind at 1. unfold predict. simpl.
  unfold matvec at 1. rewrite decide_True by done. simpl.
  unfold mbind at 1, ST_bind at 1, lift at 1.
  rewrite broadcast2_same_length
    by (rewrite !length_map; exact y_rows).
  rewrite map_map.
  change (zip_with Rminus (map (fun r0 => b + dot r0 c) (rows a)) y)
    with (spec_error a y b c).
  set (error := spec_error a y b c).
  assert (Hlen : length error = length y).
  { unfold error, spec_error. rewrite length_zip_with, length_map.
    fold (nrows a). lia. }
  unfold mbind at 1, ST_bind at 1, lift at 1, py_div.
  rewrite decide_False by lia.
  unfold mbind at 1, ST_bind at 1, lift at 1, matvec.
  rewrite decide_True by (simpl; lia). simpl rows.
  unfold mbind at 1, ST_bind at 1, isub_intercept. simpl.
  unfold mbind at 1, ST_bind at 1, isub_coefficients. simpl.
  rewrite decide_True by (by rewrite !length_map, length_seq).
  simpl.
  assert (Hcoef :
    zip_with Rminus c
      (map (Rmult learning_rate)
         (map (Rmult (2 / INR (length y)))
            (map (fun r0 => dot r0 error)
               (map (fun j => column j a) (seq 0 (ncols a)))))) =
    zip_with (fun cj j => cj - learning_rate *
                (2 / INR (length y) * spec_xt_error a error j))
             c (seq 0 (ncols a))).
  { rewrite !map_map, zip_with_map_r.
    generalize c. clear Hc.
    assert (Hall : Forall (fun j => (j < ncols a)%nat) (seq 0 (ncols a))).
    { apply Forall_forall. intros j Hj. apply elem_of_seq in Hj. lia. }
    induction Hall as [|j js Hj _ IH]; intros [|cj cs]; simpl; [done..|].
    rewrite (dot_column a error j a_wf Hj). by rewrite IH. }
  rewrite Hcoef.
  destruct (decide (epoch mod 100 = 0)%Z); eexists; reflexivity.
Qed.

(** The loop over [k] epochs is [k] steps. *)
Lemma gradient_loop_spec (k s : nat) (b : R) (c : list R) (r : nat → R)
    (out : list (Z * float64)) :
  length c = ncols a →
  ∃ out',
    for_each (gradient_step (insert_ones a) y (length y) learning_rate)
      (map Z.of_nat (seq s k)) () (World (Regressor (Some c) (Some b)) r out) =
    (Ok (),
     World (Regressor (Some (Nat.iter k (spec_step a y learning_rate) (b, c)).2)
                      (Some (Nat.iter k (spec_step a y learning_rate) (b, c)).1))
           r out').
Proof using a_wf y_rows y_nonempty.
  revert s b c out. induction k as [|k IH]; intros s b c out Hc.
  - exists out. reflexivity.
  - rewrite Nat.iter_succ_r. cbn [seq map for_each].
    destruct (gradient_step_spec b c r out (Z.of_nat s) Hc) as [out1 Hstep].
    unfold mbind, ST_bind. rewrite Hstep.
    destruct (spec_step a y learning_rate (b, c)) as [b1 c1] eqn:Hs.
    apply IH. simpl.
    unfold spec_step in Hs. injection Hs as _ <-.
    rewrite length_zip_with, length_seq. lia.
Qed.
End GradientDescentLoop.

(** C2 (as amended): on a 2-D [X] with [n >= 1] rows and [y] of length
    [n], gradient descent starts from random values in [0, 0.01) for the
    intercept and every coefficient and then performs exactly
    [iterations] update steps, each the full-batch step [spec_step] over
    the feature columns of [X]; nothing stops the loop early. *)
Theorem fit_gradient_descent_steps (a : array2 R) (y : list R)
    (learning_rate : R) (iterations : Z) (w : world) :
  wf a → nrows a = length y → (0 < length y)%nat → rng_ok w →
  let c0 := initial_coefficients w (ncols a) in
  let b0 := initial_intercept w (ncols a) in
  let fitted := Nat.iter (Z.to_nat iterations) (spec_step a y learning_rate) (b0, c0) in
  length c0 = ncols a ∧
  Forall (fun c => 0 <= c < 0.01)%R c0 ∧ (0 <= b0 < 0.01)%R ∧
  ∃ out,
    fit (Nd2 a) y "gradient_descent" learning_rate iterations w =
    (Ok (), World (Regressor (Some fitted.2) (Some fitted.1))
                  (fun i => rng w (ncols a + S i)%nat) out).
Proof.
  intros Hwf Hrows Hn Hr c0 b0 fitted.
  split; [apply initial_coefficients_length|].
  split; [by apply initial_coefficients_range|].
  split; [by apply initial_intercept_range|].
  rewrite fit_gradient_descent_unfold. unfold range, initial_world.
  apply gradient_loop_spec; try done.
  apply initial_coefficients_length.
Qed.

Lemma fit_gradient_descent_steps_witness :
  let a := Array2 1 [[1%R]; [2%R]] in
  let y := [3%R; 5%R] in
  let w := World init (fun _ => (1/2)%R) [] in
  let fitted := Nat.iter 2 (spec_step a y 0.01%R)
                  (initial_intercept w 1, initial_coefficients w 1) in
  ∃ out,
    fit (Nd2 a) y "gradient_descent" 0.01%R 2 w =
    (Ok (), World (Regressor (Some fitted.2) (Some fitted.1))
                  (fun i => rng w (1 + S i)%nat) out).
Proof.
  intros a y w fitted.
  assert (Hwf : wf a) by (repeat constructor).
  assert (Hr : rng_ok w) by (intros i; simpl; lra).
  destruct (fit_gradient_descent_steps a y 0.01%R 2 w Hwf eq_refl
              ltac:(simpl; lia) Hr) as (_ & _ & _ & H).
  exact H.
Defined.

(** C2 (as stated) fails on a table without rows: [n = len(y)] is 0,
    and the first pass of the loop raises ZeroDivisionError at [2 / n]
    instead of performing an update step. *)
Lemma fit_gradient_descent_no_rows :
  let a := Array2 1 [] in
  let w := World init (fun _ => (1/2)%R) [] in
  wf a ∧ nrows a = length (@nil R) ∧ rng_ok w ∧ (0.01 > 0)%R ∧ (1 >= 0)%Z ∧
  fit (Nd2 a) [] "gradient_descent" 0.01%R 1 w =
    (Raise ZeroDivisionError, initial_world w 1).
Proof.
  intros a w.
  split; [constructor|]. split; [reflexivity|].
  split; [intros i; simpl; lra|]. split; [lra|]. split; [lia|].
  rewrite fit_gradient_descent_unfold. unfold range. simpl.
  unfold mbind, ST_bind, gradient_step. rewrite cols_from_insert_ones.
  unfold mbind, ST_bind, predict. simpl. unfold matvec. simpl.
  unfold lift, broadcast2, py_div. simpl. reflexivity.
Qed.

(** ** Least squares *)

Lemma matmul_shape (a b c : array2 R) :
  matmul a b = Ok c → ncols a = nrows b ∧ ncols c = ncols b ∧ nrows c = nrows a.
Proof.
  unfold matmul. destruct (decide _) as [Heq|]; [|discriminate].
  intros [= <-]. unfold nrows. simpl. by rewrite length_map.
Qed.

(** *** Products of matrices *)

Section MatrixAlgebra.
Local Open Scope R_scope.

Lemma dot_nil_r (u : list R) : dot u [] = 0.
Proof. unfold dot. by rewrite zip_with_nil_r. Qed.

Lemma dot_cons (x y : R) (u v : list R) : dot (x :: u) (y :: v) = x * y + dot u v.
Proof. reflexivity. Qed.

Lemma dot_zeros_l (k : nat) (c : list R) : dot (repeat 0 k) c = 0.
Proof.
  revert c. induction k as [|k IH]; intros [|z c];
    rewrite ?dot_nil_r; try (unfold dot; simpl; lra).
  cbn [repeat]. rewrite dot_cons, IH. lra.
Qed.

Lemma map_const_seq {A} (x : A) (s n : nat) : map (fun _ => x) (seq s n) = repeat x n.
Proof. revert s. induction n as [|n IH]; intros s; simpl; [done|]. by rewrite IH. Qed.

Lemma vecmat_zeros (k : nat) (c : array2 R) :
  vecmat (repeat 0 k) c = repeat 0 (ncols c).
Proof.
  unfold vecmat. erewrite map_ext; [|intros col; apply dot_zeros_l].
  unfold transpose. simpl. rewrite map_map. apply map_const_seq.
Qed.

Lemma matmul_rows (a b c : array2 R) :
  matmul a b = Ok c → c = Array2 (ncols b) (map (fun r => vecmat r b) (rows a)).
Proof. unfold matmul. destruct (decide _); [|discriminate]. by intros [= <-]. Qed.

Lemma rows_identity (n : nat) :
  rows (identity n) = map (fun i => unit_row i 0 n) (seq 0 n).
Proof. reflexivity. Qed.

End MatrixAlgebra.

(** ** The evaluator *)

Section EvaluatorSpec.
Local Open Scope R_scope.

Lemma map_zip_with_compose {A B C D} (g : C → D) (f : A → B → C) (l : list A) (k : list B) :
  map g (zip_with f l k) = zip_with (fun x z => g (f x z)) l k.
Proof.
  revert k. induction l as [|x l IH]; intros [|z k]; simpl; [done..|]. by rewrite IH.
Qed.

End EvaluatorSpec.

(** ** np.unique *)

Lemma string_leb_iff (s t : string) :
  String.leb s t = true ↔ String_as_OT.lt s t ∨ s = t.
Proof.
  unfold String.leb. split.
  - destruct (String.compare s t) eqn:Hc; intros H; try discriminate.
    + right. by apply String.compare_eq_iff.
    + left. by apply String_as_OT.cmp_lt.
  - intros [Hlt| ->].
    + apply String_as_OT.cmp_lt in Hlt. unfold String_as_OT.cmp in Hlt. by rewrite Hlt.
    + assert (He : String.compare t t = Eq) by (by apply String_as_OT.cmp_eq).
      by rewrite He.
Qed.

#[local] Instance cell_le_trans : Transitive cell_le.
Proof.
  intros [a|s] [b|t] [c|u]; simpl; try done; try lia.
  rewrite !string_leb_iff. intros [H1| ->] [H2| ->]; auto.
  left. eapply String_as_OT.lt_trans; eauto.
Qed.

#[local] Instance cell_le_total : Total cell_le.
Proof.
  intros [a|s] [b|t]; simpl; auto; [lia|apply String.leb_total].
Qed.

#[local] Instance cell_le_antisym : AntiSymm (=) cell_le.
Proof.
  intros [a|s] [b|t]; simpl; try done.
  - intros. f_equal. lia.
  - intros H1 H2. f_equal. by apply String.leb_antisym.
Qed.

Lemma cell_le_refl (x : cell) : cell_le x x.
Proof. by destruct (total cell_le x x). Qed.

Lemma py_eq_true (x y : cell) : py_eq x y = true ↔ x = y.
Proof. unfold py_eq. apply bool_decide_eq_true. Qed.

Lemma uniq_from_spec (l : list cell) (prev : cell) :
  StronglySorted cell_le (prev :: l) →
  StronglySorted cell_lt (prev :: uniq_from prev l) ∧
  ∀ v, v ∈ prev :: uniq_from prev l ↔ v ∈ prev :: l.
Proof.
  revert prev. induction l as [|y l IH]; intros prev Hs.
  - simpl. split; [|done]. repeat constructor.
  - apply StronglySorted_inv in Hs as [Hyl Hprev].
    apply Forall_cons in Hprev as [Hpy Hpl].
    simpl. destruct (py_eq y prev) eqn:Heq.
    + apply py_eq_true in Heq as ->.
      destruct (IH prev Hyl) as [IH1 IH2]. split; [done|].
      intros v. rewrite IH2, !elem_of_cons. tauto.
    + assert (Hne : y ≠ prev).
      { intros ->. unfold py_eq in Heq. by rewrite bool_decide_eq_true_2 in Heq. }
      destruct (IH y Hyl) as [IH1 IH2]. split.
      * constructor; [done|]. apply Forall_forall. intros e He.
        apply IH2 in He.
        assert (Hye : cell_le y e).
        { apply elem_of_cons in He as [->|He]; [apply cell_le_refl|].
          apply StronglySorted_inv in Hyl as [_ Hall].
          rewrite Forall_forall in Hall. by apply Hall. }
        split; [by transitivity y|].
        intros <-. apply Hne. by apply (anti_symm cell_le).
      * intros v. rewrite !(elem_of_cons _ v prev). by rewrite IH2.
Qed.

Lemma uniq_sorted_spec (l : list cell) :
  StronglySorted cell_le l →
  StronglySorted cell_lt (uniq_sorted l) ∧ ∀ v, v ∈ uniq_sorted l ↔ v ∈ l.
Proof.
  destruct l as [|x l]; intros Hs; simpl.
  - split; [constructor|done].
  - by apply uniq_from_spec.
Qed.

Lemma cell_lt_sorted_NoDup (l : list cell) : StronglySorted cell_lt l → NoDup l.
Proof.
  induction 1 as [|x l _ IH Hall]; constructor; [|done].
  intros Hx. rewrite Forall_forall in Hall. by destruct (Hall x Hx).
Qed.

Lemma unique_values_spec (col : list cell) :
  StronglySorted cell_lt (unique_values col) ∧
  (∀ v, v ∈ unique_values col ↔ v ∈ col) ∧
  length (unique_values col) = length (remove_dups col).
Proof.
  unfold unique_values.
  destruct (uniq_sorted_spec (merge_sort cell_le col)) as [Hs He].
  { apply StronglySorted_merge_sort; apply _. }
  assert (He' : ∀ v, v ∈ uniq_sorted (merge_sort cell_le col) ↔ v ∈ col).
  { intros v. rewrite He. by rewrite merge_sort_Permutation. }
  split; [done|]. split; [done|].
  apply Permutation_length, NoDup_Permutation.
  - by apply cell_lt_sorted_NoDup.
  - apply NoDup_remove_dups.
  - intros v. rewrite He'. by rewrite elem_of_remove_dups.
Qed.

Lemma np_unique_sortable (col : list cell) :
  sortable col = true → np_unique col = Ok (unique_values col).
Proof. intros H. unfold np_unique. by rewrite H. Qed.

(** ** One pass of the encoder's loop *)

Lemma length_indicators (lv : list cell) (x : cell) : length (indicators lv x) = length lv.
Proof. unfold indicators. by rewrite length_map. Qed.

Lemma take_delete_same {A} (j : nat) (l : list A) :
  (j < length l)%nat → take j (delete j l) = take j l.
Proof.
  intros Hj. rewrite delete_take_drop.
  apply take_app_length'. rewrite length_take. lia.
Qed.

Lemma drop_delete_same {A} (j : nat) (l : list A) :
  (j < length l)%nat → drop j (delete j l) = drop (S j) l.
Proof.
  intros Hj. rewrite delete_take_drop.
  apply drop_app_length'. rewrite length_take. lia.
Qed.

(** The three blocks [np.hstack] joins, row by row. *)
Lemma hstack_rows (j : nat) (lv : list cell) (rs : list (list cell)) :
  Forall (fun r => (j < length r)%nat) rs →
  zip_with app
    (zip_with app (map (take j) (map (delete j) rs))
                  (map (indicators lv) (omap (fun r => r !! j) rs)))
    (map (drop j) (map (delete j) rs))
  = map (splice_row j lv) rs.
Proof.
  induction 1 as [|r rs Hr _ IH]; [done|].
  destruct (lookup_lt_is_Some_2 r j Hr) as [x Hx].
  cbn [map omap list_omap]. rewrite Hx. cbn [map zip_with]. rewrite IH.
  f_equal. unfold splice_row. rewrite Hx.
  rewrite take_delete_same, drop_delete_same by done.
  by rewrite <- app_assoc.
Qed.

Lemma length_column {A} (j : nat) (a : array2 A) :
  wf a → (j < ncols a)%nat → length (column j a) = nrows a.
Proof.
  intros Hwf Hj. unfold column, nrows, wf in *.
  induction Hwf as [|r rs Hr _ IH]; [done|].
  destruct (lookup_lt_is_Some_2 r j ltac:(lia)) as [x Hx].
  cbn [omap list_omap]. rewrite Hx. simpl. by rewrite IH.
Qed.

Lemma encode_column_spec (drop_first : bool) (h : heap) (r : ref)
    (a : array2 cell) (index : Z) :
  h !! r = Some a → wf a → rows a ≠ [] →
  (0 ≤ index < Z.of_nat (ncols a))%Z →
  sortable (column (Z.to_nat index) a) = true →
  encode_column drop_first r index h =
    (Ok (S (length h)),
     (h ++ [Array2 (ncols a - 1) (map (delete (Z.to_nat index)) (rows a))])
       ++ [encode_value drop_first a (Z.to_nat index)]).
Proof.
  intros Hr Hwf Hne Hi Hsort.
  set (j := Z.to_nat index) in *.
  assert (Hj : (j < ncols a)%nat) by lia.
  unfold encode_column.
  unfold mbind at 1, ST_bind at 1, deref at 1. rewrite Hr.
  unfold mbind at 1, ST_bind at 1, lift at 1, getcol, norm_index.
  rewrite decide_True by lia. cbn [mbind result_bind]. fold j.
  unfold mbind at 1, ST_bind at 1, lift at 1.
  rewrite (np_unique_sortable _ Hsort).
  change (if drop_first then drop 1 (unique_values (column j a))
          else unique_values (column j a))
    with (levels drop_first (column j a)).
  set (lv := levels drop_first (column j a)).
  unfold mbind at 1, ST_bind at 1, lift at 1, np_delete, norm_index.
  rewrite decide_True by lia. cbn [mbind result_bind]. fold j.
  unfold mbind at 1, ST_bind at 1, alloc at 1.
  unfold mbind at 1, ST_bind at 1, deref at 1.
  rewrite lookup_app_r by lia. rewrite Nat.sub_diag. cbn [lookup list_lookup].
  assert (Hb : slice_bound (ncols a - 1) index = j).
  { unfold slice_bound. rewrite decide_False by lia. lia. }
  unfold cols_before, cols_from. cbn [ncols rows]. rewrite Hb.
  assert (Hcol : ∃ x col', column j a = x :: col').
  { pose proof (length_column j a Hwf Hj) as Hl. unfold nrows in Hl.
    destruct (column j a) as [|x col']; [|by eauto].
    destruct (rows a); [done|simpl in Hl; lia]. }
  destruct Hcol as (x & col' & Hcol).
  assert (Hoh : np_array_of_lists (map (indicators lv) (column j a)) =
                Nd2 (Array2 (length lv) (map (indicators lv) (column j a)))).
  { rewrite Hcol. cbn [map np_array_of_lists]. by rewrite length_indicators. }
  rewrite Hoh.
  unfold mbind at 1, ST_bind at 1, lift at 1. cbn [np_hstack].
  rewrite decide_True
    by (unfold nrows; cbn [rows]; rewrite !length_map;
        apply eq_sym, (length_column j a Hwf Hj)).
  cbn [ncols rows].
  rewrite decide_True
    by (unfold nrows; cbn [rows]; rewrite length_zip_with, !length_map;
        pose proof (length_column j a Hwf Hj) as Hl; unfold nrows in Hl; lia).
  cbn [ncols rows]. unfold alloc.
  unfold column at 1. rewrite hstack_rows.
  2:{ eapply Forall_impl; [exact Hwf|]. intros r0 Hr0. simpl in Hr0. lia. }
  unfold encode_value. fold lv.
  rewrite length_app. cbn [length].
  replace (length h + 1)%nat with (S (length h)) by lia.
  replace (j + length lv + (ncols a - 1 - j))%nat
    with (ncols a - 1 + length lv)%nat by lia.
  reflexivity.
Qed.

(** ** The whole loop, on the values of the tables *)

Lemma length_splice_row (j : nat) (lv row : list cell) :
  (j < length row)%nat →
  length (splice_row j lv row) = (length row - 1 + length lv)%nat.
Proof.
  intros Hj. unfold splice_row.
  destruct (lookup_lt_is_Some_2 row j Hj) as [x ->].
  rewrite !length_app, length_take, length_indicators, length_drop. lia.
Qed.

Lemma wf_encode_value (drop_first : bool) (a : array2 cell) (j : nat) :
  wf a → (j < ncols a)%nat → wf (encode_value drop_first a j).
Proof.
  unfold wf, encode_value. cbn [ncols rows]. intros Hwf Hj.
  rewrite Forall_map. eapply Forall_impl; [exact Hwf|].
  intros row Hrow. simpl in *. rewrite length_splice_row by lia. lia.
Qed.

Lemma rows_encode_value_nonempty (drop_first : bool) (a : array2 cell) (j : nat) :
  rows a ≠ [] → rows (encode_value drop_first a j) ≠ [].
Proof. unfold encode_value. cbn [rows]. by destruct (rows a). Qed.

Lemma for_each_encode (drop_first : bool) (l : list Z) :
  ∀ (h : heap) (r : ref) (a : array2 cell),
    h !! r = Some a → wf a → rows a ≠ [] → steps_ok drop_first a l →
    ∃ ext r',
      for_each (encode_column drop_first) l r h = (Ok r', h ++ ext) ∧
      (h ++ ext) !! r' = Some (encode_all drop_first a l) ∧
      (r' = r ∨ (length h ≤ r')%nat).
Proof.
  induction l as [|i l IH]; intros h r a Hr Hwf Hne Hok.
  - exists [], r. rewrite app_nil_r. by auto.
  - destruct Hok as (Hi & Hsort & Hok).
    cbn [for_each]. unfold mbind, ST_bind.
    rewrite (encode_column_spec drop_first h r a i Hr Hwf Hne Hi Hsort).
    set (d := Array2 (ncols a - 1) (map (delete (Z.to_nat i)) (rows a))).
    set (e := encode_value drop_first a (Z.to_nat i)) in *.
    destruct (IH ((h ++ [d]) ++ [e]) (S (length h)) e) as (ext & r' & Hrun & Hlook & Hr').
    + rewrite lookup_app_r by (rewrite length_app; simpl; lia).
      rewrite length_app. simpl. by replace (S (length h) - (length h + 1))%nat with 0%nat by lia.
    + apply wf_encode_value; [done|lia].
    + by apply rows_encode_value_nonempty.
    + done.
    + exists ([d; e] ++ ext), r'.
      replace (h ++ [d; e] ++ ext) with (((h ++ [d]) ++ [e]) ++ ext)
        by (by rewrite <- !app_assoc).
      split; [done|]. split; [done|]. right.
      destruct Hr' as [->|Hr']; [lia|].
      rewrite !length_app in Hr'. simpl in Hr'. lia.
Qed.

(** [one_hot_encode] never writes to an array it did not allocate: the
    heap grows at its end, the result is one of the new arrays, and it
    holds the value [encode_all] computes. *)
Lemma one_hot_encode_value (X : ref) (a : array2 cell)
    (categorical_indices : list Z) (drop_first : bool) (h : heap) :
  h !! X = Some a → wf a → rows a ≠ [] →
  steps_ok drop_first a (sorted_reverse categorical_indices) →
  ∃ ext r,
    one_hot_encode X categorical_indices drop_first h = (Ok r, h ++ ext) ∧
    (h ++ ext) !! r =
      Some (encode_all drop_first a (sorted_reverse categorical_indices)) ∧
    (length h ≤ r)%nat.
Proof.
  intros HX Hwf Hne Hok. unfold one_hot_encode.
  unfold mbind at 1, ST_bind at 1, deref. rewrite HX.
  unfold mbind at 1, ST_bind at 1, alloc.
  destruct (for_each_encode drop_first (sorted_reverse categorical_indices)
              (h ++ [a]) (length h) a) as (ext & r & Hrun & Hlook & Hr); try done.
  { rewrite lookup_app_r by lia. by rewrite Nat.sub_diag. }
  exists ([a] ++ ext), r.
  replace (h ++ [a] ++ ext) with ((h ++ [a]) ++ ext) by (by rewrite <- app_assoc).
  split; [done|]. split; [done|].
  destruct Hr as [->|Hr]; [lia|]. rewrite length_app in Hr. lia.
Qed.

(** ** One designated column *)

Lemma sorted_reverse_singleton (i : Z) : sorted_reverse [i] = [i].
Proof.
  apply Permutation_singleton_r. apply sorted_reverse_perm.
Qed.

Lemma indicators_sum (lv : list cell) (x : cell) :
  NoDup lv →
  cell_sum (indicators lv x) = if bool_decide (x ∈ lv) then 1%Z else 0%Z.
Proof.
  induction 1 as [|v lv Hv _ IH]; [done|].
  cbn [indicators map cell_sum foldr]. fold (indicators lv x). fold (cell_sum (indicators lv x)).
  rewrite IH. unfold py_eq.
  destruct (decide (x = v)) as [->|Hne].
  - rewrite bool_decide_eq_true_2 by done.
    rewrite (bool_decide_eq_false_2 (v ∈ lv)) by done.
    by rewrite (bool_decide_eq_true_2 (v ∈ v :: lv)) by apply list_elem_of_here.
  - rewrite bool_decide_eq_false_2 by done. simpl.
    destruct (decide (x ∈ lv)) as [Hin|Hnin].
    + rewrite (bool_decide_eq_true_2 (x ∈ lv)) by done.
      by rewrite (bool_decide_eq_true_2 (x ∈ v :: lv)) by (by apply list_elem_of_further).
    + rewrite (bool_decide_eq_false_2 (x ∈ lv)) by done.
      rewrite (bool_decide_eq_false_2 (x ∈ v :: lv)); [done|].
      rewrite elem_of_cons. tauto.
Qed.

Lemma indicator_block_splice (j : nat) (lv row : list cell) (x : cell) :
  row !! j = Some x →
  indicator_block j (length lv) (splice_row j lv row) = indicators lv x.
Proof.
  intros Hx. unfold indicator_block, splice_row. rewrite Hx.
  rewrite drop_app_length' by (rewrite length_take; apply lookup_lt_Some in Hx; lia).
  apply take_app_length'. by rewrite length_indicators.
Qed.

Lemma levels_NoDup (drop_first : bool) (col : list cell) : NoDup (levels drop_first col).
Proof.
  destruct (unique_values_spec col) as (Hs & _ & _).
  apply cell_lt_sorted_NoDup in Hs. unfold levels.
  destruct drop_first; [|done].
  rewrite <- (take_drop 1 (unique_values col)) in Hs.
  by apply NoDup_app in Hs as (_ & _ & Hs).
Qed.

Lemma elem_of_column {A} (j : nat) (a : array2 A) (row : list A) (x : A) :
  row ∈ rows a → row !! j = Some x → x ∈ column j a.
Proof.
  intros Hrow Hx. unfold column. apply list_elem_of_omap. by exists row.
Qed.

(** C3 (as amended): on a table with at least one row, encoding one
    column [c] whose values are all ints or all strs and [k] of them
    distinct gives, with [drop_first = False], [k] indicator columns in
    the place of column [c], one per value in ascending order, and the
    indicators of every row add up to 1; with [drop_first = True] the
    smallest value gets no column, [k − 1] columns remain, and the
    indicators of every row add up to 0 or 1. *)
Theorem one_hot_encode_single_column (X : ref) (a : array2 cell) (c : nat)
    (drop_first : bool) (h : heap) :
  h !! X = Some a → wf a → rows a ≠ [] → (c < ncols a)%nat →
  sortable (column c a) = true →
  let col := column c a in
  let k := length (remove_dups col) in
  let u := unique_values col in
  let lv := if drop_first then drop 1 u else u in
  StronglySorted cell_lt u ∧ (∀ v, v ∈ u ↔ v ∈ col) ∧ length u = k ∧
  length lv = (if drop_first then k - 1 else k)%nat ∧
  ∃ h' r t,
    one_hot_encode X [Z.of_nat c] drop_first h = (Ok r, h') ∧
    h' !! r = Some t ∧
    ncols t = (ncols a - 1 + length lv)%nat ∧
    rows t = map (splice_row c lv) (rows a) ∧
    Forall (fun row =>
              let s := cell_sum (indicator_block c (length lv) row) in
              if drop_first then s = 0%Z ∨ s = 1%Z else s = 1%Z)
           (rows t).
Proof.
  intros HX Hwf Hne Hc Hsort col k u lv.
  destruct (unique_values_spec col) as (Hs & Hel & Hlen).
  split; [done|]. split; [done|]. split; [done|].
  split. { subst lv u k. destruct drop_first; [rewrite length_drop|]; lia. }
  destruct (one_hot_encode_value X a [Z.of_nat c] drop_first h HX Hwf Hne)
    as (ext & r & Hrun & Hlook & Hr).
  { rewrite sorted_reverse_singleton. cbn [steps_ok]. rewrite Nat2Z.id.
    split; [lia|]. by split. }
  rewrite sorted_reverse_singleton in Hlook. cbn [encode_all] in Hlook.
  rewrite Nat2Z.id in Hlook.
  exists (h ++ ext), r, (encode_value drop_first a c).
  split; [done|]. split; [done|]. split; [done|]. split; [done|].
  unfold encode_value. cbn [rows]. change (levels drop_first (column c a)) with lv.
  rewrite Forall_map. apply Forall_forall. intros row Hrow. cbn zeta.
  assert (Hlenrow : (c < length row)%nat).
  { unfold wf in Hwf. rewrite Forall_forall in Hwf. rewrite (Hwf row Hrow). done. }
  destruct (lookup_lt_is_Some_2 row c Hlenrow) as [x Hx].
  rewrite (indicator_block_splice c lv row x Hx).
  rewrite indicators_sum by apply (levels_NoDup drop_first col).
  destruct drop_first.
  - destruct (bool_decide (x ∈ lv)); auto.
  - rewrite bool_decide_eq_true_2; [done|].
    unfold lv. apply Hel. by apply (elem_of_column c a row).
Qed.

Lemma one_hot_encode_single_column_witness :
  let a := Array2 2 [[CStr "b"; CInt 7]; [CStr "a"; CInt 8]; [CStr "b"; CInt 9]] in
  let lv := unique_values (column 0 a) in
  ∃ h' r t,
    one_hot_encode 0 [0%Z] false [a] = (Ok r, h') ∧
    h' !! r = Some t ∧
    ncols t = (ncols a - 1 + length lv)%nat ∧
    rows t = map (splice_row 0 lv) (rows a) ∧
    Forall (fun row => cell_sum (indicator_block 0 (length lv) row) = 1%Z) (rows t).
Proof.
  intros a lv.
  assert (Hwf : wf a) by (repeat constructor).
  assert (Hne : rows a ≠ []) by discriminate.
  assert (Hc : (0 < ncols a)%nat) by (simpl; lia).
  destruct (one_hot_encode_single_column 0 a 0 false [a] eq_refl Hwf Hne Hc eq_refl)
    as (_ & _ & _ & _ & H).
  exact H.
Defined.

(** C3 (as stated) fails on a column that holds an int and a str: it
    has [k = 2] distinct values, but [np.unique] cannot sort them and
    raises TypeError, so no indicator column is produced. *)
Lemma one_hot_encode_single_column_mixed :
  let a := Array2 1 [[CInt 1]; [CStr "a"]] in
  wf a ∧ (0 < ncols a)%nat ∧ length (remove_dups (column 0 a)) = 2%nat ∧
  one_hot_encode 0 [0%Z] false [a] = (Raise TypeError, [a; a]).
Proof.
  intros a. split; [by repeat constructor|]. split; [simpl; lia|].
  split; reflexivity.
Qed.

(** A table without rows is not encoded either: [np.array] of the
    empty list of indicator rows is 1-D, and [np.hstack] raises. *)
Lemma one_hot_encode_no_rows :
  let a := Array2 1 [] in
  wf a ∧ (0 < ncols a)%nat ∧ length (remove_dups (column 0 a)) = 0%nat ∧
  one_hot_encode 0 [0%Z] false [a] = (Raise ShapeError, [a; a; Array2 0 []]).
Proof. intros a. split; [constructor|]. split; [simpl; lia|]. split; reflexivity. Qed.

(** ** Several designated columns *)

Lemma expand_app L off (r1 r2 : list cell) :
  expand L off (r1 ++ r2) = expand L off r1 ++ expand L (off + length r1) r2.
Proof.
  revert off. induction r1 as [|x r1 IH]; intros off; simpl.
  - by rewrite Nat.add_0_r.
  - rewrite IH, <- app_assoc. do 3 f_equal. lia.
Qed.

Lemma expand_none L off (row : list cell) :
  (∀ p, (off ≤ p)%nat → L p = None) → expand L off row = row.
Proof.
  revert off. induction row as [|x row IH]; intros off HL; simpl; [done|].
  rewrite (HL off) by lia. simpl. f_equal. apply IH. intros p Hp. apply HL. lia.
Qed.

Lemma expand_ext L L' off (row : list cell) :
  (∀ p, (off ≤ p < off + length row)%nat → L p = L' p) →
  expand L off row = expand L' off row.
Proof.
  revert off. induction row as [|x row IH]; intros off HL; simpl; [done|].
  rewrite (HL off) by (simpl; lia). f_equal.
  apply IH. intros p Hp. apply HL. simpl. lia.
Qed.

(** The encoded row around column [j]: what the columns to its left
    became, then the cell of column [j] or its indicators, then what the
    columns to its right became. *)
Lemma expand_split L (row : list cell) (j : nat) (x : cell) :
  row !! j = Some x →
  expand L 0 row =
    expand L 0 (take j row)
    ++ match L j with
       | Some lv => indicators lv x
       | None => [x]
       end
    ++ expand L (S j) (drop (S j) row).
Proof.
  intros Hx. rewrite <- (take_drop_middle row j x Hx) at 1.
  rewrite expand_app. simpl.
  rewrite length_take_le by (apply lookup_lt_Some in Hx; lia).
  reflexivity.
Qed.

Lemma length_expand L off (row : list cell) :
  length (expand L off row) = position_from L off (length row).
Proof.
  revert off. induction row as [|x row IH]; intros off; [done|].
  cbn [expand length position_from]. rewrite length_app, IH. f_equal.
  destruct (L off); [apply length_indicators|done].
Qed.

Lemma position_from_add L off (n m : nat) :
  position_from L off (n + m) =
  (position_from L off n + position_from L (off + n) m)%nat.
Proof.
  revert off. induction n as [|n IH]; intros off; cbn [position_from Nat.add].
  - by rewrite Nat.add_0_r.
  - rewrite IH. replace (S off + n)%nat with (off + S n)%nat by lia. lia.
Qed.

(** Columns keep their order: a column starts after everything the
    columns to its left became. *)
Lemma column_position_mono L (j j' : nat) :
  (j < j')%nat → (column_position L j + width (L j) ≤ column_position L j')%nat.
Proof.
  intros Hlt. unfold column_position.
  replace j' with (j + S (j' - S j))%nat by lia.
  rewrite position_from_add. cbn [position_from Nat.add]. lia.
Qed.

(** Column [j] of the input is found at its position: the cell itself
    when the column is not designated, its indicators when it is. *)
Lemma expand_at_column L (row : list cell) (j : nat) (x : cell) :
  row !! j = Some x →
  match L j with
  | None => expand L 0 row !! column_position L j = Some x
  | Some lv =>
      indicator_block (column_position L j) (length lv) (expand L 0 row) =
      indicators lv x
  end.
Proof.
  intros Hx. rewrite (expand_split L row j x Hx).
  assert (Hlen : length (expand L 0 (take j row)) = column_position L j).
  { rewrite length_expand, length_take_le; [done|].
    apply lookup_lt_Some in Hx. lia. }
  destruct (L j) as [lv|].
  - unfold indicator_block. rewrite drop_app_length' by done.
    apply take_app_length'. by rewrite length_indicators.
  - rewrite lookup_app_r by lia. by rewrite Hlen, Nat.sub_diag.
Qed.

(** Replacing column [j] leaves the columns to its left as they are. *)
Lemma omap_lookup_splice (j p : nat) (lv : list cell) (rs : list (list cell)) :
  Forall (fun r => (j < length r)%nat) rs → (p < j)%nat →
  omap (fun r => r !! p) (map (splice_row j lv) rs) = omap (fun r => r !! p) rs.
Proof.
  intros Hrs Hp. induction Hrs as [|row rs Hrow _ IH]; [done|].
  cbn [map omap list_omap]. rewrite IH.
  assert (Hl : splice_row j lv row !! p = row !! p).
  { unfold splice_row. rewrite lookup_app_l by (rewrite length_take; lia).
    by apply lookup_take_lt. }
  by rewrite Hl.
Qed.

Lemma column_encode_value_lt (drop_first : bool) (a : array2 cell) (j p : nat) :
  wf a → (j < ncols a)%nat → (p < j)%nat →
  column p (encode_value drop_first a j) = column p a.
Proof.
  intros Hwf Hj Hp. unfold column, encode_value. cbn [rows].
  apply omap_lookup_splice; [|done].
  eapply Forall_impl; [exact Hwf|]. intros r Hr. simpl in Hr. lia.
Qed.

Lemma designated_Some (drop_first : bool) (a : array2 cell) (l : list Z) (j : nat) :
  Z.of_nat j ∈ l → designated drop_first a l j = Some (levels drop_first (column j a)).
Proof. intros H. unfold designated. by rewrite bool_decide_eq_true_2. Qed.

Lemma designated_None (drop_first : bool) (a : array2 cell) (l : list Z) (j : nat) :
  Z.of_nat j ∉ l → designated drop_first a l j = None.
Proof. intros H. unfold designated. by rewrite bool_decide_eq_false_2. Qed.

(** Processing the indices from the largest down encodes every
    designated column in its place. *)
Lemma encode_all_spec (drop_first : bool) (l : list Z) :
  ∀ a : array2 cell,
    wf a → StronglySorted Z.gt l →
    Forall (fun i => (0 ≤ i < Z.of_nat (ncols a))%Z) l →
    Forall (fun i => sortable (column (Z.to_nat i) a) = true) l →
    steps_ok drop_first a l ∧
    wf (encode_all drop_first a l) ∧
    rows (encode_all drop_first a l) =
      map (expand (designated drop_first a l) 0) (rows a).
Proof.
  induction l as [|i l IH]; intros a Hwf Hs Hv Hsort.
  - cbn [steps_ok encode_all]. split; [done|]. split; [done|].
    rewrite <- (map_id (rows a)) at 1. apply map_ext. intros row.
    symmetry. apply expand_none. intros p _. apply designated_None.
    apply not_elem_of_nil.
  - apply StronglySorted_inv in Hs as [Hs Hgt].
    apply Forall_cons in Hv as [Hi Hv]. apply Forall_cons in Hsort as [Hsi Hsort].
    rewrite Forall_forall in Hgt, Hv, Hsort.
    set (j := Z.to_nat i). assert (Hj : (j < ncols a)%nat) by lia.
    set (a' := encode_value drop_first a j).
    destruct (IH a') as (Hok & Hwf' & Hrows).
    + by apply wf_encode_value.
    + done.
    + apply Forall_forall. intros i' Hi'.
      specialize (Hgt i' Hi'). specialize (Hv i' Hi').
      unfold a', encode_value. cbn [ncols]. lia.
    + apply Forall_forall. intros i' Hi'.
      specialize (Hgt i' Hi'). specialize (Hv i' Hi').
      unfold a'. rewrite column_encode_value_lt by (done || lia).
      by apply Hsort.
    + cbn [steps_ok encode_all]. fold j a'.
      split; [done|]. split; [done|].
      rewrite Hrows. unfold a' at 2, encode_value. cbn [rows].
      rewrite map_map. apply map_ext_in. intros row Hrow.
      apply list_elem_of_In in Hrow.
      set (lv := levels drop_first (column j a)).
      set (L := designated drop_first a (i :: l)).
      set (L' := designated drop_first a' l).
      assert (Hlen : (j < length row)%nat).
      { unfold wf in Hwf. rewrite Forall_forall in Hwf. by rewrite (Hwf row Hrow). }
      destruct (lookup_lt_is_Some_2 row j Hlen) as [x Hx].
      assert (F1 : ∀ p, (p < j)%nat → L' p = L p).
      { intros p Hp. unfold L, L', designated.
        unfold a'. rewrite column_encode_value_lt by done.
        destruct (decide (Z.of_nat p ∈ l)) as [Hin|Hnin].
        - rewrite !bool_decide_eq_true_2; [done| |done].
          by apply list_elem_of_further.
        - rewrite !bool_decide_eq_false_2; [done| |done].
          rewrite elem_of_cons. intros [Heq|Hin]; [lia|done]. }
      assert (F2 : ∀ p, (j ≤ p)%nat → L' p = None).
      { intros p Hp. apply designated_None. intros Hin.
        specialize (Hgt _ Hin). lia. }
      assert (F3 : L j = Some lv).
      { apply designated_Some. replace (Z.of_nat j) with i by lia.
        apply list_elem_of_here. }
      assert (F4 : ∀ p, (S j ≤ p)%nat → L p = None).
      { intros p Hp. apply designated_None. rewrite elem_of_cons.
        intros [Heq|Hin]; [lia|]. specialize (Hgt _ Hin). lia. }
      rewrite (expand_split L row j x Hx), F3.
      rewrite (expand_none L (S j)) by done.
      unfold splice_row. rewrite Hx. rewrite expand_app.
      rewrite length_take_le by lia.
      rewrite (expand_none L' (0 + j)) by (intros p Hp; apply F2; lia).
      f_equal. apply expand_ext. intros p Hp.
      rewrite length_take_le in Hp by lia. apply F1. lia.
Qed.

Lemma sorted_reverse_strict (l : list Z) :
  NoDup l → StronglySorted Z.gt (sorted_reverse l).
Proof.
  intros Hnd. rewrite <- sorted_reverse_perm in Hnd.
  pose proof (sorted_reverse_sorted l) as Hs.
  induction Hs as [|i s _ IH Hall]; [constructor|].
  apply NoDup_cons in Hnd as [Hi Hnd].
  constructor; [by apply IH|].
  rewrite Forall_forall in Hall. apply Forall_forall. intros i' Hi'.
  specialize (Hall i' Hi'). assert (i ≠ i') by (by intros ->). lia.
Qed.

(** C4 (as amended): on a table with at least one row, for a set of
    valid column indices whose columns each hold only ints or only strs,
    [one_hot_encode] returns a new array and leaves the input, like
    every array that was on the heap, as it was.  Every row of the
    result is the row of the input walked from left to right, a
    designated column giving its indicators and any other column its own
    cell.  So the cell of a column that is not designated is found
    unchanged at the column's position, the indicators of a designated
    column fill the columns from its position on, and the positions keep
    the order of the columns. *)
Theorem one_hot_encode_frame (X : ref) (a : array2 cell)
    (categorical_indices : list Z) (drop_first : bool) (h : heap) :
  h !! X = Some a → wf a → rows a ≠ [] →
  NoDup categorical_indices →
  Forall (fun i => (0 ≤ i < Z.of_nat (ncols a))%Z) categorical_indices →
  Forall (fun i => sortable (column (Z.to_nat i) a) = true) categorical_indices →
  let L := designated drop_first a categorical_indices in
  ∃ h' r t,
    one_hot_encode X categorical_indices drop_first h = (Ok r, h') ∧
    r ≠ X ∧ (length h ≤ r)%nat ∧ h' !! X = Some a ∧
    (∀ r0, (r0 < length h)%nat → h' !! r0 = h !! r0) ∧
    h' !! r = Some t ∧ wf t ∧
    rows t = map (expand L 0) (rows a) ∧
    (∀ row j x, row ∈ rows a → row !! j = Some x →
       match L j with
       | None => expand L 0 row !! column_position L j = Some x
       | Some lv =>
           indicator_block (column_position L j) (length lv) (expand L 0 row) =
           indicators lv x
       end) ∧
    (∀ j j', (j < j')%nat →
       (column_position L j + width (L j) ≤ column_position L j')%nat).
Proof.
  intros HX Hwf Hne Hnd Hv Hsort L.
  set (s := sorted_reverse categorical_indices).
  assert (Hperm : s ≡ₚ categorical_indices) by apply sorted_reverse_perm.
  destruct (encode_all_spec drop_first s a Hwf) as (Hok & Hwft & Hrows).
  { by apply sorted_reverse_strict. }
  { by rewrite Hperm. }
  { by rewrite Hperm. }
  destruct (one_hot_encode_value X a categorical_indices drop_first h HX Hwf Hne Hok)
    as (ext & r & Hrun & Hlook & Hr).
  pose proof (lookup_lt_Some _ _ _ HX) as HXlt.
  exists (h ++ ext), r, (encode_all drop_first a s).
  split; [done|]. split; [lia|]. split; [done|].
  split; [by rewrite lookup_app_l|].
  split; [by intros r0 Hr0; rewrite lookup_app_l|].
  split; [done|]. split; [done|]. split; [|split].
  - rewrite Hrows. apply map_ext. intros row. apply expand_ext. intros p _.
    unfold L, designated.
    destruct (decide (Z.of_nat p ∈ categorical_indices)) as [Hin|Hnin].
    + rewrite !bool_decide_eq_true_2; [done|done|by rewrite Hperm].
    + rewrite !bool_decide_eq_false_2; [done|done|by rewrite Hperm].
  - intros row j x _ Hx. by apply expand_at_column.
  - apply column_position_mono.
Qed.

Lemma one_hot_encode_frame_witness :
  let a := Array2 3 [[CStr "b"; CInt 7; CStr "x"]; [CStr "a"; CInt 8; CStr "y"]] in
  let L := designated true a [0; 2]%Z in
  ∃ h' r t,
    one_hot_encode 0 [0; 2]%Z true [a] = (Ok r, h') ∧
    r ≠ 0%nat ∧ h' !! 0%nat = Some a ∧
    h' !! r = Some t ∧ wf t ∧
    rows t = map (expand L 0) (rows a).
Proof.
  intros a L.
  assert (Hwf : wf a) by (repeat constructor).
  assert (Hne : rows a ≠ []) by discriminate.
  assert (Hnd : NoDup [0; 2]%Z).
  { apply NoDup_cons. split; [|apply NoDup_singleton].
    rewrite list_elem_of_singleton. discriminate. }
  assert (Hv : Forall (fun i => (0 ≤ i < Z.of_nat (ncols a))%Z) [0; 2]%Z).
  { repeat constructor; simpl; lia. }
  assert (Hs : Forall (fun i => sortable (column (Z.to_nat i) a) = true) [0; 2]%Z).
  { repeat constructor. }
  destruct (one_hot_encode_frame 0 a [0; 2]%Z true [a] eq_refl Hwf Hne Hnd Hv Hs)
    as (h' & r & t & H1 & H2 & _ & H3 & _ & H5 & H6 & H7 & _).
  exists h', r, t. repeat split; assumption.
Defined.

(** C4 (as stated) fails when a designated column holds an int and a
    str: [np.unique] raises TypeError, and no table is returned. *)
Lemma one_hot_encode_frame_mixed :
  let a := Array2 2 [[CInt 1; CStr "x"]; [CStr "a"; CStr "y"]] in
  wf a ∧ NoDup [0%Z] ∧ (0 ≤ 0 < Z.of_nat (ncols a))%Z ∧
  one_hot_encode 0 [0%Z] true [a] = (Raise TypeError, [a; a]).
Proof.
  intros a. split; [by repeat constructor|]. split; [apply NoDup_singleton|].
  split; [simpl; lia|]. reflexivity.
Qed.

(* ================================================================= *)
(** * Further properties *)

(** ** predict on a fitted model *)

Section PredictFacts.
Local Open Scope R_scope.

Lemma predict_2d (a : array2 R) (c : list R) (b : R) (w : world) :
  self w = Regressor (Some c) (Some b) → length c = ncols a →
  predict (Nd2 a) w = (Ok (map (fun r => b + dot r c) (rows a)), w).
Proof.
  intros Hs Hc. unfold predict. rewrite Hs. cbn [coefficients intercept].
  unfold matvec. rewrite decide_True by done.
  cbn [mbind result_bind]. by rewrite map_map.
Qed.

(** With one coefficient, a 1-D input is predicted like the column it
    would be reshaped to. *)
Lemma predict_1d_as_column (v : list R) (c0 b : R) (w : world) :
  self w = Regressor (Some [c0]) (Some b) →
  predict (Nd1 v) w = predict (Nd2 (reshape_column v)) w.
Proof.
  intros Hs. rewrite (predict_2d (reshape_column v) [c0] b w Hs eq_refl).
  unfold predict. rewrite Hs. cbn [coefficients intercept].
  assert (Hb : broadcast2 Rmult [c0] v = Ok (map (Rmult c0) v)).
  { unfold broadcast2. destruct (decide _) as [Hl|Hl]; [|done].
    destruct v as [|x [|x' v]]; try discriminate. reflexivity. }
  rewrite Hb. cbn [mbind result_bind]. do 2 f_equal.
  unfold reshape_column. cbn [rows]. rewrite !map_map.
  apply map_ext. intros x. unfold dot. simpl. lra.
Qed.

End PredictFacts.

(** ** Least squares: failures *)

Section LeastSquaresEdges.
Local Open Scope R_scope.

(** X4: a least-squares fit that raises, for whatever reason, has
    changed nothing: the regressor keeps the parameters it had. *)
Theorem least_squares_failure_keeps_state (X : ndarray R) (y : list R)
    (learning_rate : R) (iterations : Z) (w w' : world) (e : exn) :
  fit X y "least_squares" learning_rate iterations w = (Raise e, w') →
  w' = w.
Proof.
  unfold fit. simpl negb. cbv iota.
  change (bool_decide ("least_squares" = "least_squares")) with true. cbv iota.
  unfold fit_multiple, mbind, ST_bind, lift.
  destruct (matmul _ _) as [g|]; [|intros [= _ <-]; done].
  destruct (linalg_inv g) as [gi|]; [|intros [= _ <-]; done].
  destruct (matmul gi _) as [p|]; [|intros [= _ <-]; done].
  destruct (matvec p y) as [beta|]; [|intros [= _ <-]; done].
  destruct (item beta 0) as [b|]; [|intros [= _ <-]; done].
  unfold set_intercept, set_coefficients. discriminate.
Qed.
End LeastSquaresEdges.

Section SingularGram.
Local Open Scope R_scope.

Lemma linalg_inv_singular (g : array2 R) :
  ¬ (∃ gi, is_inverse g gi) → linalg_inv g = Raise LinAlgError.
Proof.
  intros Hno. unfold linalg_inv.
  by destruct (excluded_middle_informative _) as [H|H].
Qed.

Lemma lookup_rows_identity (n i : nat) :
  (i < n)%nat → rows (identity n) !! i = Some (unit_row i 0 n).
Proof.
  intros Hi. rewrite rows_identity, list_lookup_fmap, lookup_seq_lt by done.
  reflexivity.
Qed.

Lemma lookup_unit_row (n i k : nat) :
  (k < n)%nat → unit_row i 0 n !! k = Some (if (i =? k)%nat then 1 else 0).
Proof.
  intros Hk. unfold unit_row. rewrite list_lookup_fmap, lookup_seq_lt by done.
  reflexivity.
Qed.

(** A matrix whose first row is all zeros has no inverse. *)
Lemma no_inverse_zero_row (g : array2 R) (k : nat) (rest : list (list R)) :
  rows g = repeat 0 k :: rest → ¬ (∃ gi, is_inverse g gi).
Proof.
  intros Hrows (gi & _ & _ & Hr & _).
  apply matmul_rows in Hr.
  apply (f_equal rows) in Hr. cbn [rows] in Hr.
  apply (f_equal (fun l => l !! 0%nat)) in Hr.
  assert (Hn : (0 < nrows g)%nat) by (unfold nrows; rewrite Hrows; simpl; lia).
  rewrite (lookup_rows_identity _ _ Hn), Hrows in Hr.
  cbn [map lookup list_lookup] in Hr.
  injection Hr as Hr. rewrite vecmat_zeros in Hr.
  apply (f_equal (fun l => l !! 0%nat)) in Hr.
  rewrite (lookup_unit_row _ 0 0 Hn) in Hr. simpl in Hr.
  destruct (ncols gi); simpl in Hr; [discriminate|].
  injection Hr as Hr. lra.
Qed.

Lemma fit_least_squares_singular (X : ndarray R) (y : list R) (learning_rate : R)
    (iterations : Z) (w : world) (g : array2 R) :
  matmul (transpose (insert_ones (as_2d X))) (insert_ones (as_2d X)) = Ok g →
  ¬ (∃ gi, is_inverse g gi) →
  fit X y "least_squares" learning_rate iterations w = (Raise LinAlgError, w).
Proof.
  intros Hg Hno. unfold fit. simpl negb. cbv iota.
  change (bool_decide ("least_squares" = "least_squares")) with true. cbv iota.
  fold (as_2d X). unfold fit_multiple, mbind, ST_bind, lift.
  by rewrite Hg, (linalg_inv_singular g Hno).
Qed.

Lemma gram_rows (a : array2 R) :
  ∃ g, matmul (transpose a) a = Ok g ∧
       rows g = map (fun r => map (dot r) (rows (transpose a))) (rows (transpose a)).
Proof.
  unfold matmul. rewrite decide_True by reflexivity. by eexists.
Qed.

(** The Gram matrix of data without rows starts with a row of zeros. *)
Lemma gram_no_rows (a : array2 R) (g : array2 R) :
  rows a = [] →
  matmul (transpose (insert_ones a)) (insert_ones a) = Ok g →
  ∃ rest, rows g = repeat 0 (S (ncols a)) :: rest.
Proof.
  intros Hrows Hg.
  destruct (gram_rows (insert_ones a)) as (g' & Hg' & Hgr).
  rewrite Hg in Hg'. injection Hg' as <-.
  assert (Hcols : rows (transpose (insert_ones a)) =
                  [] :: map (fun _ => []) (seq 1 (ncols a))).
  { unfold transpose, insert_ones, column. cbn [rows ncols]. rewrite Hrows.
    cbn [map seq omap list_omap]. f_equal. }
  rewrite Hcols in Hgr. cbn [map] in Hgr.
  eexists. rewrite Hgr. f_equal. cbn [repeat]. f_equal.
  rewrite map_map. apply (map_const_seq 0).
Qed.

(** X5: a least-squares fit on data without rows raises LinAlgError:
    the Gram matrix is the zero matrix.  The regressor is left as it
    was. *)
Theorem least_squares_no_rows (X : ndarray R) (y : list R) (learning_rate : R)
    (iterations : Z) (w : world) :
  rows (as_2d X) = [] →
  fit X y "least_squares" learning_rate iterations w = (Raise LinAlgError, w).
Proof.
  intros Hrows.
  destruct (gram_rows (insert_ones (as_2d X))) as (g & Hg & _).
  apply (fit_least_squares_singular X y _ _ w g Hg).
  destruct (gram_no_rows (as_2d X) g Hrows Hg) as [rest Hr].
  exact (no_inverse_zero_row g _ rest Hr).
Qed.

Lemma least_squares_no_rows_witness :
  let w := World (Regressor (Some [2]) (Some 1)) (fun _ => 0) [] in
  fit (Nd2 (Array2 1 [])) [] "least_squares" 0.01 1000 w = (Raise LinAlgError, w).
Proof.
  intros w. exact (least_squares_no_rows (Nd2 (Array2 1 [])) [] 0.01 1000 w eq_refl).
Defined.

Lemma least_squares_failure_keeps_state_witness :
  let w := World (Regressor (Some [2]) (Some 1)) (fun _ => 0) [] in
  World (Regressor (Some [2]) (Some 1)) (fun _ => 0) [] = w.
Proof.
  intros w.
  apply (least_squares_failure_keeps_state (Nd2 (Array2 1 [])) [] 0.01 1000 w _
           LinAlgError).
  destruct (gram_rows (insert_ones (Array2 1 []))) as (g & Hg & _).
  apply (fit_least_squares_singular (Nd2 (Array2 1 [])) [] _ _ w g Hg).
  destruct (gram_no_rows (Array2 1 []) g eq_refl Hg) as [rest Hr].
  exact (no_inverse_zero_row g _ rest Hr).
Defined.

End SingularGram.

Section RegressorEdges.
Local Open Scope R_scope.

Lemma linalg_inv_cases (g : array2 R) :
  linalg_inv g = Raise LinAlgError ∨ ∃ gi, linalg_inv g = Ok gi ∧ is_inverse g gi.
Proof.
  unfold linalg_inv.
  destruct (excluded_middle_informative _) as [H|H]; [right|by left].
  destruct (constructive_indefinite_description _ H) as [gi Hgi]. by exists gi.
Qed.

(** X7: a least-squares fit never returns on a [y] whose length is not
    the number of rows of [X]: [y] is not broadcast, not even a [y] of
    length 1.  The fit raises the LinAlgError of [np.linalg.inv] when
    the inversion fails, and the shape error of the last product when it
    does not; either way the regressor is left as it was. *)
Theorem least_squares_wrong_length (X : ndarray R) (y : list R)
    (learning_rate : R) (iterations : Z) (w : world) :
  nrows (as_2d X) ≠ length y →
  fit X y "least_squares" learning_rate iterations w = (Raise LinAlgError, w) ∨
  fit X y "least_squares" learning_rate iterations w = (Raise ShapeError, w).
Proof.
  intros Hy. set (X_bias := insert_ones (as_2d X)).
  destruct (gram_rows X_bias) as (g & Hg & _).
  unfold fit. simpl negb. cbv iota.
  change (bool_decide ("least_squares" = "least_squares")) with true. cbv iota.
  change (insert_ones _) with X_bias.
  unfold fit_multiple, mbind, ST_bind, lift. rewrite Hg.
  destruct (linalg_inv_cases g) as [Hlin|(gi & Hlin & _)]; rewrite Hlin;
    [by left|right].
  destruct (matmul gi (transpose X_bias)) as [p|e] eqn:Hp.
  - pose proof (matmul_shape _ _ _ Hp) as (_ & Hpc & _).
    unfold matvec. rewrite decide_False; [done|].
    rewrite Hpc. unfold transpose. cbn [ncols].
    unfold X_bias, insert_ones, nrows in *. cbn [rows].
    by rewrite length_map.
  - unfold matmul in Hp. destruct (decide _); [discriminate|].
    by injection Hp as <-.
Qed.

Lemma least_squares_wrong_length_witness :
  let w := World init (fun _ => 0) [] in
  fit (Nd1 [0; 1]) [1] "least_squares" 0.01 1000 w = (Raise LinAlgError, w) ∨
  fit (Nd1 [0; 1]) [1] "least_squares" 0.01 1000 w = (Raise ShapeError, w).
Proof.
  intros w. apply (least_squares_wrong_length (Nd1 [0; 1]) [1] 0.01 1000 w).
  unfold nrows. simpl. lia.
Defined.

Lemma broadcast2_mismatch {A B} (f : A → A → B) (u v : list A) :
  length u ≠ length v → length u ≠ 1%nat → length v ≠ 1%nat →
  broadcast2 f u v = Raise ShapeError.
Proof.
  intros H H1 H2. unfold broadcast2. rewrite decide_False by done.
  destruct u as [|x [|x' u]], v as [|z [|z' v]]; simpl in *; done.
Qed.

Lemma range_pos (k : Z) :
  (1 ≤ k)%Z → range k = 0%Z :: map Z.of_nat (seq 1 (Z.to_nat k - 1)).
Proof.
  intros Hk. unfold range.
  replace (Z.to_nat k) with (S (Z.to_nat k - 1)) at 1 by lia. reflexivity.
Qed.

(** X8: a gradient-descent fit that fails has already overwritten the
    regressor.  When [y] has neither the length of the predictions nor
    length 1, the first pass of the loop raises the shape error of
    [predictions - y], and the coefficients and the intercept are the
    random initial values, not the ones of the fit before. *)
Theorem gradient_descent_failure_overwrites (a : array2 R) (y : list R)
    (learning_rate : R) (iterations : Z) (w : world) :
  (1 ≤ iterations)%Z →
  length y ≠ nrows a → length y ≠ 1%nat → nrows a ≠ 1%nat →
  fit (Nd2 a) y "gradient_descent" learning_rate iterations w =
    (Raise ShapeError, initial_world w (ncols a)) ∧
  self (initial_world w (ncols a)) =
    Regressor (Some (initial_coefficients w (ncols a)))
              (Some (initial_intercept w (ncols a))).
Proof.
  intros Hit Hy Hy1 Hn1. split; [|reflexivity].
  rewrite fit_gradient_descent_unfold, (range_pos _ Hit).
  cbn [for_each]. unfold mbind at 1, ST_bind at 1.
  unfold gradient_step. rewrite cols_from_insert_ones.
  unfold mbind at 1, ST_bind at 1.
  rewrite (predict_2d a (initial_coefficients w (ncols a))
             (initial_intercept w (ncols a)) (initial_world w (ncols a)) eq_refl
             (initial_coefficients_length w (ncols a))).
  unfold mbind at 1, ST_bind at 1, lift at 1.
  rewrite broadcast2_mismatch; [done| | |done].
  - rewrite length_map. fold (nrows a). congruence.
  - rewrite length_map. exact Hn1.
Qed.

Lemma gradient_descent_failure_overwrites_witness :
  let w := World (Regressor (Some [2]) (Some 1)) (fun _ => 1/2) [] in
  let a := Array2 1 [[1]; [2]; [3]] in
  fit (Nd2 a) [1; 2] "gradient_descent" 0.01 1000 w =
    (Raise ShapeError, initial_world w 1) ∧
  self (initial_world w 1) =
    Regressor (Some (initial_coefficients w 1)) (Some (initial_intercept w 1)).
Proof.
  intros w a.
  apply (gradient_descent_failure_overwrites a [1; 2] 0.01 1000 w);
    unfold nrows; simpl; lia.
Defined.
End RegressorEdges.

Section GradientDescentLog.
Local Open Scope R_scope.
Variables (a : array2 R) (y : list R) (learning_rate : R).

Hypothesis a_wf : wf a.
Hypothesis y_rows : nrows a = length y.
Hypothesis y_nonempty : (0 < length y)%nat.

Lemma gradient_step_exact (b : R) (c : list R) (r : nat → R)
    (out : list (Z * float64)) (epoch : Z) :
  length c = ncols a →
  gradient_step (insert_ones a) y (length y) learning_rate () epoch
    (World (Regressor (Some c) (Some b)) r out) =
  (Ok (), World (Regressor (Some (spec_step a y learning_rate (b, c)).2)
                           (Some (spec_step a y learning_rate (b, c)).1)) r
                (out ++ spec_print a y epoch (b, c))).
Proof using a_wf y_rows y_nonempty.
  intros Hc. unfold gradient_step. rewrite cols_from_insert_ones.
  unfold mbind at 1, ST_bind at 1. unfold predict. simpl.
  unfold matvec at 1. rewrite decide_True by done. simpl.
  unfold mbind at 1, ST_bind at 1, lift at 1.
  rewrite broadcast2_same_length
    by (rewrite !length_map; exact y_rows).
  rewrite map_map.
  change (zip_with Rminus (map (fun r0 => b + dot r0 c) (rows a)) y)
    with (spec_error a y b c).
  set (error := spec_error a y b c).
  assert (Hlen : length error = length y).
  { unfold error, spec_error. rewrite length_zip_with, length_map.
    fold (nrows a). lia. }
  unfold mbind at 1, ST_bind at 1, lift at 1, py_div.
  rewrite decide_False by lia.
  unfold mbind at 1, ST_bind at 1, lift at 1, matvec.
  rewrite decide_True by (simpl; lia). simpl rows.
  unfold mbind at 1, ST_bind at 1, isub_intercept. simpl.
  unfold mbind at 1, ST_bind at 1, isub_coefficients. simpl.
  rewrite decide_True by (by rewrite !length_map, length_seq).
  simpl.
  assert (Hcoef :
    zip_with Rminus c
      (map (Rmult learning_rate)
         (map (Rmult (2 / INR (length y)))
            (map (fun r0 => dot r0 error)
               (map (fun j => column j a) (seq 0 (ncols a)))))) =
    zip_with (fun cj j => cj - learning_rate *
                (2 / INR (length y) * spec_xt_error a error j))
             c (seq 0 (ncols a))).
  { rewrite !map_map, zip_with_map_r.
    generalize c. clear Hc.
    assert (Hall : Forall (fun j => (j < ncols a)%nat) (seq 0 (ncols a))).
    { apply Forall_forall. intros j Hj. apply elem_of_seq in Hj. lia. }
    induction Hall as [|j js Hj _ IH]; intros [|cj cs]; simpl; [done..|].
    rewrite (dot_column a error j a_wf Hj). by rewrite IH. }
  rewrite Hcoef. unfold spec_print. cbn [fst snd]. fold error.
  destruct (decide (epoch mod 100 = 0)%Z); [reflexivity|].
  by rewrite app_nil_r.
Qed.

Lemma gradient_loop_exact (epochs : list Z) :
  ∀ (b : R) (c : list R) (r : nat → R) (out : list (Z * float64)),
    length c = ncols a →
    for_each (gradient_step (insert_ones a) y (length y) learning_rate)
      epochs () (World (Regressor (Some c) (Some b)) r out) =
    (Ok (),
     World (Regressor
              (Some (foldl (fun bc _ => spec_step a y learning_rate bc) (b, c) epochs).2)
              (Some (foldl (fun bc _ => spec_step a y learning_rate bc) (b, c) epochs).1))
           r (out ++ spec_log a y learning_rate epochs (b, c))).
Proof using a_wf y_rows y_nonempty.
  induction epochs as [|e es IH]; intros b c r out Hc.
  - cbn [for_each spec_log foldl]. by rewrite app_nil_r.
  - cbn [for_each spec_log foldl]. unfold mbind, ST_bind.
    rewrite (gradient_step_exact b c r out e Hc).
    destruct (spec_step a y learning_rate (b, c)) as [b1 c1] eqn:Hs.
    cbn [fst snd]. rewrite IH.
    + by rewrite <- app_assoc.
    + unfold spec_step in Hs. injection Hs as _ <-.
      rewrite length_zip_with, length_seq. lia.
Qed.

(** The epochs that print are the multiples of 100. *)
Lemma spec_log_epochs (epochs : list Z) (bc : R * list R) :
  map fst (spec_log a y learning_rate epochs bc) =
  filter (fun e => (e mod 100 = 0)%Z) epochs.
Proof.
  revert bc. induction epochs as [|e es IH]; intros bc; [done|].
  cbn [spec_log]. rewrite map_app, IH. unfold spec_print.
  rewrite filter_cons. by destruct (decide _).
Qed.

End GradientDescentLog.

Section GradientDescentTheorems.
Local Open Scope R_scope.

(** X9: when a gradient-descent fit prints.  On data with at least one
    row the fit returns, and the output has grown by one line for every
    epoch of [range(iterations)] that is divisible by 100 (0, 100, 200,
    ...), in this order, and by nothing else. *)
Theorem gradient_descent_log (a : array2 R) (y : list R) (learning_rate : R)
    (iterations : Z) (w : world) :
  wf a → nrows a = length y → (0 < length y)%nat →
  ∃ w',
    fit (Nd2 a) y "gradient_descent" learning_rate iterations w = (Ok (), w') ∧
    map fst (stdout w') =
      map fst (stdout w) ++ filter (fun e => (e mod 100 = 0)%Z) (range iterations).
Proof.
  intros Hwf Hrows Hn.
  rewrite fit_gradient_descent_unfold. unfold initial_world.
  rewrite (gradient_loop_exact a y learning_rate Hwf Hrows Hn (range iterations))
    by apply initial_coefficients_length.
  eexists. split; [reflexivity|]. cbn [stdout].
  by rewrite map_app, spec_log_epochs.
Qed.

Lemma gradient_descent_log_witness :
  let a := Array2 1 [[1]; [2]] in
  let y := [3; 5] in
  let w := World init (fun _ => 1/2) [] in
  ∃ w',
    fit (Nd2 a) y "gradient_descent" 0.01 250 w = (Ok (), w') ∧
    map fst (stdout w') =
      map fst (stdout w) ++ filter (fun e => (e mod 100 = 0)%Z) (range 250).
Proof.
  intros a y w.
  assert (Hwf : wf a) by (repeat constructor).
  exact (gradient_descent_log a y 0.01 250 w Hwf eq_refl ltac:(simpl; lia)).
Defined.

End GradientDescentTheorems.

Section PredictTheorems.
Local Open Scope R_scope.

(** X11: for a model with one coefficient, [predict] on a 1-D array of
    feature values and on the same values as a column agree: both give
    [intercept + coefficient * x] for every value [x]. *)
Theorem predict_one_feature (v : list R) (c0 b : R) (w : world) :
  self w = Regressor (Some [c0]) (Some b) →
  predict (Nd1 v) w = (Ok (map (fun x => b + c0 * x) v), w) ∧
  predict (Nd2 (reshape_column v)) w = predict (Nd1 v) w.
Proof.
  intros Hs.
  rewrite (predict_1d_as_column v c0 b w Hs). split; [|reflexivity].
  rewrite (predict_2d (reshape_column v) [c0] b w Hs eq_refl).
  do 2 f_equal. unfold reshape_column. cbn [rows]. rewrite map_map.
  apply map_ext. intros x. unfold dot. simpl. lra.
Qed.

Lemma predict_one_feature_witness :
  let w := World (Regressor (Some [2]) (Some 1)) (fun _ => 0) [] in
  predict (Nd1 [0; 1; 5]) w = (Ok (map (fun x => 1 + 2 * x) [0; 1; 5]), w) ∧
  predict (Nd2 (reshape_column [0; 1; 5])) w = predict (Nd1 [0; 1; 5]) w.
Proof.
  intros w. exact (predict_one_feature [0; 1; 5] 2 1 w eq_refl).
Defined.

(** X12: a 1-D input is never read as one sample of several features.
    With as many values as the model has coefficients, [predict]
    multiplies them pairwise and returns one number per coefficient,
    where the same values as the single row of a 2-D input give the one
    prediction [intercept + x·coefficients]. *)
Theorem predict_1d_is_elementwise (x c : list R) (b : R) (w : world) :
  self w = Regressor (Some c) (Some b) → length x = length c →
  predict (Nd1 x) w = (Ok (zip_with (fun ci xi => b + ci * xi) c x), w) ∧
  predict (Nd2 (Array2 (length x) [x])) w = (Ok [b + dot x c], w).
Proof.
  intros Hs Hl. split.
  - unfold predict. rewrite Hs. cbn [coefficients intercept].
    rewrite broadcast2_same_length by done. cbn [mbind result_bind].
    by rewrite map_zip_with_compose.
  - by rewrite (predict_2d (Array2 (length x) [x]) c b w Hs).
Qed.

Lemma predict_1d_is_elementwise_witness :
  let w := World (Regressor (Some [2; 3]) (Some 1)) (fun _ => 0) [] in
  predict (Nd1 [10; 20]) w =
    (Ok (zip_with (fun ci xi => 1 + ci * xi) [2; 3] [10; 20]), w) ∧
  predict (Nd2 (Array2 2 [[10; 20]])) w = (Ok [1 + dot [10; 20] [2; 3]], w).
Proof.
  intros w. exact (predict_1d_is_elementwise [10; 20] [2; 3] 1 w eq_refl eq_refl).
Defined.

(** X13: [predict] only reads the regressor: whatever the input and the
    outcome, the regressor, the generator and the output are as before.
    On a fitted model a 2-D input whose number of columns is not the
    number of coefficients raises the shape error of the product. *)
Theorem predict_reads_only (X : ndarray R) (w : world) :
  (predict X w).2 = w ∧
  ∀ a c b, X = Nd2 a → self w = Regressor (Some c) (Some b) →
           ncols a ≠ length c →
           predict X w = (Raise ShapeError, w).
Proof.
  split.
  - unfold predict.
    destruct (coefficients (self w)), (intercept (self w)), X; reflexivity.
  - intros a c b -> Hs Hn. unfold predict. rewrite Hs.
    cbn [coefficients intercept]. unfold matvec.
    by rewrite decide_False.
Qed.

Lemma predict_reads_only_witness :
  let w := World (Regressor (Some [2; 3]) (Some 1)) (fun _ => 0) [] in
  predict (Nd2 (Array2 1 [[10]])) w = (Raise ShapeError, w).
Proof.
  intros w.
  apply (proj2 (predict_reads_only (Nd2 (Array2 1 [[10]])) w)
               (Array2 1 [[10]]) [2; 3] 1 eq_refl eq_refl).
  simpl. lia.
Defined.
End PredictTheorems.

(** ** The evaluator: edges *)

Section EvaluatorFacts.
Local Open Scope R_scope.

(** X14: without true values there is no evaluation: on an empty
    [y_true] the function raises, ZeroDivisionError at [1 / n] when
    [y_pred] has at most one entry, the shape error of
    [y_true - y_pred] when it has more. *)
Theorem evaluate_regression_empty (y_pred : list R) :
  evaluate_regression [] y_pred =
    Raise (if decide (length y_pred ≤ 1)%nat then ZeroDivisionError else ShapeError).
Proof.
  destruct y_pred as [|p [|p' y_pred]]; reflexivity.
Qed.

(** X15: on equally long inputs that are not empty
    [evaluate_regression] returns, whatever the values: the result is a
    mapping with the keys "R2", "RMSE" and "MAE" and no other.  A
    constant [y_true], whose total sum of squares is 0, is no exception:
    the division [rss / tss] of numpy floats raises nothing. *)
Theorem evaluate_regression_constant (y_true y_pred : list R) :
  length y_true = length y_pred → (0 < length y_true)%nat →
  ∃ d, evaluate_regression y_true y_pred = Ok d ∧
       dom d = {["R2"; "RMSE"; "MAE"]}.
Proof.
  intros Hlen Hn. unfold evaluate_regression.
  rewrite (broadcast2_same_length _ _ _ Hlen). unfold mbind, result_bind.
  unfold py_div. rewrite decide_False by lia.
  eexists. split; [reflexivity|].
  rewrite !dom_insert_L, dom_empty_L. set_solver.
Qed.

Lemma evaluate_regression_constant_witness :
  ∃ d, evaluate_regression [2; 2; 2] [1; 2; 3] = Ok d ∧
       dom d = {["R2"; "RMSE"; "MAE"]}.
Proof.
  apply (evaluate_regression_constant [2; 2; 2] [1; 2; 3] eq_refl).
  simpl. lia.
Defined.

(** X16: inputs of different lengths, neither of length 1, are
    refused with the shape error of [y_true - y_pred]. *)
Theorem evaluate_regression_wrong_length (y_true y_pred : list R) :
  length y_true ≠ length y_pred →
  length y_true ≠ 1%nat → length y_pred ≠ 1%nat →
  evaluate_regression y_true y_pred = Raise ShapeError.
Proof.
  intros H H1 H2. unfold evaluate_regression.
  by rewrite broadcast2_mismatch.
Qed.

Lemma evaluate_regression_wrong_length_witness :
  evaluate_regression [1; 2; 3] [1; 2] = Raise ShapeError.
Proof.
  apply evaluate_regression_wrong_length; simpl; lia.
Defined.
End EvaluatorFacts.

Section EvaluatorMore.
Local Open Scope R_scope.

Lemma zip_with_repeat_r {A B C} (f : A → B → C) (l : list A) (x : B) :
  zip_with f l (repeat x (length l)) = map (fun t => f t x) l.
Proof. induction l as [|t l IH]; [done|]. cbn [length repeat zip_with map]. by rewrite IH. Qed.

(** X20: a prediction of length 1 is not a length error: it is
    broadcast, and evaluated as that one value predicted for every
    entry of [y_true]. *)
Theorem evaluate_regression_broadcasts (y_true : list R) (p : R) :
  evaluate_regression y_true [p] =
  evaluate_regression y_true (repeat p (length y_true)).
Proof.
  unfold evaluate_regression.
  assert (Hb : broadcast2 Rminus y_true [p] =
               broadcast2 Rminus y_true (repeat p (length y_true))).
  { rewrite (broadcast2_same_length _ y_true (repeat p (length y_true)))
      by (by rewrite repeat_length).
    rewrite zip_with_repeat_r. unfold broadcast2.
    destruct (decide (length y_true = length [p])) as [Hl|Hl].
    - destruct y_true as [|t [|t' l]]; try discriminate. reflexivity.
    - destruct y_true as [|t [|t' l]]; try done. }
  by rewrite Hb.
Qed.
End EvaluatorMore.

(** ** The encoder: edges *)

Lemma one_hot_encode_unfold (X : ref) (a : array2 cell)
    (categorical_indices : list Z) (drop_first : bool) (h : heap) :
  h !! X = Some a →
  one_hot_encode X categorical_indices drop_first h =
  for_each (encode_column drop_first) (sorted_reverse categorical_indices)
           (length h) (h ++ [a]).
Proof.
  intros HX. unfold one_hot_encode.
  unfold mbind at 1, ST_bind at 1, deref. rewrite HX.
  unfold mbind at 1, ST_bind at 1, alloc. reflexivity.
Qed.

Lemma lookup_copy (h : heap) (a : array2 cell) : (h ++ [a]) !! length h = Some a.
Proof. rewrite lookup_app_r by lia. by rewrite Nat.sub_diag. Qed.

(** The first index processed is an element of the list and at least
    every other. *)
Lemma sorted_reverse_nonempty (l : list Z) :
  l ≠ [] → ∃ m rest, sorted_reverse l = m :: rest ∧ m ∈ l ∧ Forall (Z.ge m) l.
Proof.
  intros Hne. pose proof (sorted_reverse_sorted l) as Hs.
  pose proof (sorted_reverse_perm l) as Hp.
  destruct (sorted_reverse l) as [|m rest].
  - symmetry in Hp. apply Permutation_nil_r in Hp. done.
  - exists m, rest. split; [done|].
    split; [rewrite <- Hp; apply list_elem_of_here|].
    rewrite <- Hp. apply StronglySorted_inv in Hs as [_ Hall].
    constructor; [lia|done].
Qed.

(** X21: with no index to encode, [one_hot_encode] returns a new array
    that is a copy of the input, whatever the table (without rows or
    columns too) and whatever [drop_first]. *)
Theorem one_hot_encode_no_index (X : ref) (a : array2 cell) (drop_first : bool)
    (h : heap) :
  h !! X = Some a →
  ∃ r h',
    one_hot_encode X [] drop_first h = (Ok r, h') ∧
    r ≠ X ∧ h' !! r = Some a ∧ h' !! X = Some a.
Proof.
  intros HX. pose proof (lookup_lt_Some _ _ _ HX) as Hlt.
  exists (length h), (h ++ [a]).
  split; [by rewrite (one_hot_encode_unfold X a [] drop_first h HX)|].
  split; [lia|]. split; [apply lookup_copy|by rewrite lookup_app_l].
Qed.

Lemma one_hot_encode_no_index_witness :
  let a := Array2 2 [] in
  ∃ r h',
    one_hot_encode 0 [] true [a] = (Ok r, h') ∧
    r ≠ 0%nat ∧ h' !! r = Some a ∧ h' !! 0%nat = Some a.
Proof.
  intros a. exact (one_hot_encode_no_index 0 a true [a] eq_refl).
Defined.

(** X22: a table without rows cannot be encoded: with at least one
    index, all of them in range, the first pass raises the shape error
    of [np.hstack], whose middle operand is a 1-D array. *)
Theorem one_hot_encode_without_rows (X : ref) (a : array2 cell)
    (categorical_indices : list Z) (drop_first : bool) (h : heap) :
  h !! X = Some a → rows a = [] →
  categorical_indices ≠ [] →
  Forall (fun i => (0 ≤ i < Z.of_nat (ncols a))%Z) categorical_indices →
  one_hot_encode X categorical_indices drop_first h =
    (Raise ShapeError, h ++ [a; Array2 (ncols a - 1) []]).
Proof.
  intros HX Hrows Hne Hv.
  destruct (sorted_reverse_nonempty _ Hne) as (m & rest & Hs & Hm & _).
  rewrite Forall_forall in Hv. specialize (Hv m Hm).
  rewrite (one_hot_encode_unfold X a _ drop_first h HX), Hs.
  cbn [for_each]. unfold mbind at 1, ST_bind at 1.
  unfold encode_column.
  unfold mbind at 1, ST_bind at 1, deref at 1. rewrite lookup_copy.
  unfold mbind at 1, ST_bind at 1, lift at 1, getcol, norm_index.
  rewrite decide_True by lia. cbn [mbind result_bind].
  unfold column. rewrite Hrows. cbn [omap list_omap].
  unfold mbind at 1, ST_bind at 1, lift at 1.
  change (np_unique []) with (@Ok (list cell) []).
  unfold mbind at 1, ST_bind at 1, lift at 1, np_delete, norm_index.
  rewrite decide_True by lia. cbn [mbind result_bind]. rewrite Hrows.
  unfold mbind at 1, ST_bind at 1, alloc at 1.
  unfold mbind at 1, ST_bind at 1, deref at 1.
  rewrite lookup_app_r by lia. rewrite Nat.sub_diag. cbn [lookup list_lookup].
  unfold mbind at 1, ST_bind at 1, lift at 1.
  cbn [map np_array_of_lists np_hstack].
  by rewrite <- app_assoc.
Qed.

Lemma one_hot_encode_without_rows_witness :
  let a := Array2 3 [] in
  one_hot_encode 0 [0; 2]%Z false [a] = (Raise ShapeError, [a; a; Array2 2 []]).
Proof.
  intros a.
  apply (one_hot_encode_without_rows 0 a [0; 2]%Z false [a] eq_refl eq_refl);
    [discriminate|repeat constructor; simpl; lia].
Defined.

(** X23: an index list whose indices all lie below [-ncols] raises
    IndexError in the first pass, before anything is encoded. *)
Theorem one_hot_encode_index_too_small (X : ref) (a : array2 cell)
    (categorical_indices : list Z) (drop_first : bool) (h : heap) :
  h !! X = Some a →
  categorical_indices ≠ [] →
  Forall (fun i => (i < - Z.of_nat (ncols a))%Z) categorical_indices →
  one_hot_encode X categorical_indices drop_first h = (Raise IndexError, h ++ [a]).
Proof.
  intros HX Hne Hv.
  destruct (sorted_reverse_nonempty _ Hne) as (m & rest & Hs & Hm & _).
  rewrite Forall_forall in Hv. specialize (Hv m Hm).
  rewrite (one_hot_encode_unfold X a _ drop_first h HX), Hs.
  cbn [for_each]. unfold mbind at 1, ST_bind at 1.
  unfold encode_column.
  unfold mbind at 1, ST_bind at 1, deref at 1. rewrite lookup_copy.
  unfold mbind at 1, ST_bind at 1, lift at 1, getcol, norm_index.
  rewrite decide_False by lia. rewrite decide_False by lia. reflexivity.
Qed.

Lemma one_hot_encode_index_too_small_witness :
  let a := Array2 2 [[CStr "a"; CInt 5]] in
  one_hot_encode 0 [-3; -4]%Z false [a] = (Raise IndexError, [a; a]).
Proof.
  intros a.
  apply (one_hot_encode_index_too_small 0 a [-3; -4]%Z false [a] eq_refl);
    [discriminate|repeat constructor; simpl; lia].
Defined.

(** ** The encoder: a column [np.unique] cannot sort *)

Lemma encode_column_mixed (drop_first : bool) (h : heap) (r : ref)
    (a : array2 cell) (index : Z) :
  h !! r = Some a →
  (0 ≤ index < Z.of_nat (ncols a))%Z →
  sortable (column (Z.to_nat index) a) = false →
  encode_column drop_first r index h = (Raise TypeError, h).
Proof.
  intros Hr Hi Hs. unfold encode_column.
  unfold mbind at 1, ST_bind at 1, deref at 1. rewrite Hr.
  unfold mbind at 1, ST_bind at 1, lift at 1, getcol, norm_index.
  rewrite decide_True by lia. cbn [mbind result_bind].
  unfold mbind at 1, ST_bind at 1, lift at 1, np_unique.
  by rewrite Hs.
Qed.

Lemma unsortable_rows (a : array2 cell) (j : nat) :
  sortable (column j a) = false → rows a ≠ [].
Proof. unfold column. intros Hs Hr. rewrite Hr in Hs. discriminate. Qed.

(** The loop stops with TypeError at the first pass, from the right,
    whose column mixes ints and strs; the passes before it only add
    arrays to the heap. *)
Lemma for_each_encode_mixed (drop_first : bool) (l : list Z) :
  ∀ (h : heap) (r : ref) (a : array2 cell),
    h !! r = Some a → wf a → StronglySorted Z.gt l →
    Forall (fun i => (0 ≤ i < Z.of_nat (ncols a))%Z) l →
    Exists (fun i => sortable (column (Z.to_nat i) a) = false) l →
    ∃ ext, for_each (encode_column drop_first) l r h = (Raise TypeError, h ++ ext).
Proof.
  induction l as [|i l IH]; intros h r a Hr Hwf Hs Hv Hex.
  - by apply Exists_nil in Hex.
  - apply StronglySorted_inv in Hs as [Hs Hgt].
    apply Forall_cons in Hv as [Hi Hv].
    cbn [for_each]. unfold mbind, ST_bind.
    destruct (sortable (column (Z.to_nat i) a)) eqn:Hsi.
    + apply Exists_cons in Hex as [Hex|Hex]; [congruence|].
      assert (Hne : rows a ≠ []).
      { apply Exists_exists in Hex as (i' & _ & Hi').
        by apply unsortable_rows in Hi'. }
      rewrite (encode_column_spec drop_first h r a i Hr Hwf Hne Hi Hsi).
      set (d := Array2 (ncols a - 1) (map (delete (Z.to_nat i)) (rows a))).
      set (e := encode_value drop_first a (Z.to_nat i)) in *.
      rewrite Forall_forall in Hgt, Hv.
      destruct (IH ((h ++ [d]) ++ [e]) (S (length h)) e) as [ext Hrun].
      * rewrite lookup_app_r by (rewrite length_app; simpl; lia).
        rewrite length_app. simpl.
        by replace (S (length h) - (length h + 1))%nat with 0%nat by lia.
      * apply wf_encode_value; [done|lia].
      * done.
      * apply Forall_forall. intros i' Hi'.
        specialize (Hgt i' Hi'). specialize (Hv i' Hi').
        unfold e, encode_value. cbn [ncols]. lia.
      * apply Exists_exists in Hex as (i' & Hin & Hi').
        apply Exists_exists. exists i'. split; [done|].
        specialize (Hgt i' Hin). specialize (Hv i' Hin).
        unfold e. rewrite column_encode_value_lt by (done || lia). done.
      * exists ([d; e] ++ ext). rewrite Hrun. f_equal.
        by rewrite <- !app_assoc.
    + rewrite (encode_column_mixed drop_first h r a i Hr Hi Hsi).
      exists []. by rewrite app_nil_r.
Qed.

(** X24: whenever one of the designated columns holds both an int and a
    str, [one_hot_encode] raises TypeError and returns no table, also
    when the columns to its right were encoded without error; the
    arrays that were on the heap, the input among them, stay as they
    were. *)
Theorem one_hot_encode_mixed_column (X : ref) (a : array2 cell)
    (categorical_indices : list Z) (drop_first : bool) (h : heap) (c : Z) :
  h !! X = Some a → wf a →
  NoDup categorical_indices →
  Forall (fun i => (0 ≤ i < Z.of_nat (ncols a))%Z) categorical_indices →
  c ∈ categorical_indices →
  sortable (column (Z.to_nat c) a) = false →
  ∃ h',
    one_hot_encode X categorical_indices drop_first h = (Raise TypeError, h') ∧
    ∀ r0, (r0 < length h)%nat → h' !! r0 = h !! r0.
Proof.
  intros HX Hwf Hnd Hv Hc Hs.
  set (s := sorted_reverse categorical_indices).
  assert (Hperm : s ≡ₚ categorical_indices) by apply sorted_reverse_perm.
  destruct (for_each_encode_mixed drop_first s (h ++ [a]) (length h) a)
    as [ext Hrun].
  - apply lookup_copy.
  - done.
  - by apply sorted_reverse_strict.
  - by rewrite Hperm.
  - apply Exists_exists. exists c. split; [by rewrite Hperm|done].
  - exists ((h ++ [a]) ++ ext). split.
    + by rewrite (one_hot_encode_unfold X a _ drop_first h HX).
    + intros r0 Hr0. rewrite <- app_assoc. by rewrite lookup_app_l.
Qed.

Lemma one_hot_encode_mixed_column_witness :
  let a := Array2 3 [[CInt 1; CInt 7; CStr "x"]; [CStr "a"; CInt 8; CStr "y"]] in
  ∃ h',
    one_hot_encode 0 [0; 2]%Z false [a] = (Raise TypeError, h') ∧
    ∀ r0, (r0 < 1)%nat → h' !! r0 = [a] !! r0.
Proof.
  intros a.
  apply (one_hot_encode_mixed_column 0 a [0; 2]%Z false [a] 0%Z eq_refl).
  - repeat constructor.
  - apply NoDup_cons. split; [|apply NoDup_singleton].
    rewrite list_elem_of_singleton. discriminate.
  - repeat constructor; simpl; lia.
  - apply list_elem_of_here.
  - reflexivity.
Defined.

(** ** The encoder: a negative index *)

Lemma hstack_rows_negative (j : nat) (lv : list cell) (rs : list (list cell)) :
  Forall (fun r => (j < length r)%nat) rs →
  zip_with app
    (zip_with app (map (take (j - 1)) (map (delete j) rs))
                  (map (indicators lv) (omap (fun r => r !! j) rs)))
    (map (drop (j - 1)) (map (delete j) rs))
  = map (splice_row_negative j lv) rs.
Proof.
  induction 1 as [|r rs Hr _ IH]; [done|].
  destruct (lookup_lt_is_Some_2 r j Hr) as [x Hx].
  cbn [map omap list_omap]. rewrite Hx. cbn [map zip_with]. rewrite IH.
  f_equal. rewrite <- app_assoc. destruct j as [|p].
  - unfold splice_row_negative, splice_row. rewrite Hx.
    cbn [Nat.sub]. by rewrite (drop_delete_same 0 r Hr).
  - unfold splice_row_negative. rewrite Hx.
    destruct (lookup_lt_is_Some_2 r p ltac:(lia)) as [y Hy]. rewrite Hy.
    replace (S p - 1)%nat with p by lia.
    rewrite delete_take_drop, (take_S_r r p y Hy).
    assert (Hl : length (take p r) = p) by (rewrite length_take; lia).
    rewrite <- (app_assoc (take p r) [y]).
    rewrite take_app_length' by done. rewrite drop_app_length' by done.
    reflexivity.
Qed.

Lemma encode_column_negative (drop_first : bool) (h : heap) (r : ref)
    (a : array2 cell) (index : Z) :
  h !! r = Some a → wf a → rows a ≠ [] →
  (- Z.of_nat (ncols a) ≤ index < 0)%Z →
  let j := Z.to_nat (index + Z.of_nat (ncols a)) in
  let lv := levels drop_first (column j a) in
  sortable (column j a) = true →
  encode_column drop_first r index h =
    (Ok (S (length h)),
     (h ++ [Array2 (ncols a - 1) (map (delete j) (rows a))])
       ++ [Array2 (ncols a - 1 + length lv)
                  (map (splice_row_negative j lv) (rows a))]).
Proof.
  intros Hr Hwf Hne Hi j lv Hsort.
  assert (Hj : (j < ncols a)%nat) by lia.
  unfold encode_column.
  unfold mbind at 1, ST_bind at 1, deref at 1. rewrite Hr.
  unfold mbind at 1, ST_bind at 1, lift at 1, getcol, norm_index.
  rewrite decide_False by lia. rewrite decide_True by lia.
  cbn [mbind result_bind]. fold j.
  unfold mbind at 1, ST_bind at 1, lift at 1.
  rewrite (np_unique_sortable _ Hsort).
  change (if drop_first then drop 1 (unique_values (column j a))
          else unique_values (column j a))
    with (levels drop_first (column j a)).
  fold lv.
  unfold mbind at 1, ST_bind at 1, lift at 1, np_delete, norm_index.
  rewrite decide_False by lia. rewrite decide_True by lia.
  cbn [mbind result_bind]. fold j.
  unfold mbind at 1, ST_bind at 1, alloc at 1.
  unfold mbind at 1, ST_bind at 1, deref at 1.
  rewrite lookup_app_r by lia. rewrite Nat.sub_diag. cbn [lookup list_lookup].
  assert (Hb : slice_bound (ncols a - 1) index = (j - 1)%nat).
  { unfold slice_bound. rewrite decide_True by lia. lia. }
  unfold cols_before, cols_from. cbn [ncols rows]. rewrite Hb.
  assert (Hcol : ∃ x col', column j a = x :: col').
  { pose proof (length_column j a Hwf Hj) as Hl. unfold nrows in Hl.
    destruct (column j a) as [|x col']; [|by eauto].
    destruct (rows a); [done|simpl in Hl; lia]. }
  destruct Hcol as (x & col' & Hcol).
  assert (Hoh : np_array_of_lists (map (indicators lv) (column j a)) =
                Nd2 (Array2 (length lv) (map (indicators lv) (column j a)))).
  { rewrite Hcol. cbn [map np_array_of_lists]. by rewrite length_indicators. }
  rewrite Hoh.
  unfold mbind at 1, ST_bind at 1, lift at 1. cbn [np_hstack].
  rewrite decide_True
    by (unfold nrows; cbn [rows]; rewrite !length_map;
        apply eq_sym, (length_column j a Hwf Hj)).
  cbn [ncols rows].
  rewrite decide_True
    by (unfold nrows; cbn [rows]; rewrite length_zip_with, !length_map;
        pose proof (length_column j a Hwf Hj) as Hl; unfold nrows in Hl; lia).
  cbn [ncols rows]. unfold alloc.
  unfold column at 1. rewrite hstack_rows_negative.
  2:{ eapply Forall_impl; [exact Hwf|]. intros r0 Hr0. simpl in Hr0. lia. }
  rewrite length_app. cbn [length].
  replace (length h + 1)%nat with (S (length h)) by lia.
  replace (j - 1 + length lv + (ncols a - 1 - (j - 1)))%nat
    with (ncols a - 1 + length lv)%nat by lia.
  reflexivity.
Qed.

(** X25: a single negative index [i] in [[-ncols, -1]] is accepted and
    names column [j = ncols + i], whose values get the indicator
    columns; but the slices [[:, :i]] and [[:, i:]] are taken after the
    column was deleted, so the indicators are put one column left of
    where column [j] stood: the cell of column [j − 1] follows them.
    Only for [i = -ncols] (the first column) do they stand in the
    column's place. *)
Theorem one_hot_encode_negative_index (X : ref) (a : array2 cell) (i : Z)
    (drop_first : bool) (h : heap) :
  h !! X = Some a → wf a → rows a ≠ [] →
  (- Z.of_nat (ncols a) ≤ i < 0)%Z →
  let j := Z.to_nat (i + Z.of_nat (ncols a)) in
  let lv := levels drop_first (column j a) in
  sortable (column j a) = true →
  ∃ h' r t,
    one_hot_encode X [i] drop_first h = (Ok r, h') ∧
    h' !! r = Some t ∧ h' !! X = Some a ∧
    ncols t = (ncols a - 1 + length lv)%nat ∧
    rows t = map (splice_row_negative j lv) (rows a) ∧
    (j = 0%nat → t = encode_value drop_first a 0) ∧
    (∀ row p x y, row ∈ rows a → j = S p →
       row !! j = Some x → row !! p = Some y →
       splice_row_negative j lv row !! (p + length lv)%nat = Some y ∧
       indicator_block p (length lv) (splice_row_negative j lv row) =
         indicators lv x).
Proof.
  intros HX Hwf Hne Hi j lv Hsort.
  pose proof (lookup_lt_Some _ _ _ HX) as HXlt.
  rewrite (one_hot_encode_unfold X a _ drop_first h HX).
  rewrite sorted_reverse_singleton. cbn [for_each].
  unfold mbind at 1, ST_bind at 1.
  rewrite (encode_column_negative drop_first (h ++ [a]) (length h) a i
             (lookup_copy h a) Hwf Hne Hi Hsort).
  fold j lv. cbn [mret ST_ret].
  set (d := Array2 (ncols a - 1) (map (delete j) (rows a))).
  set (t := Array2 (ncols a - 1 + length lv)
                   (map (splice_row_negative j lv) (rows a))).
  exists (((h ++ [a]) ++ [d]) ++ [t]), (S (length (h ++ [a]))), t.
  split; [done|]. split.
  { rewrite lookup_app_r by (rewrite !length_app; simpl; lia).
    rewrite !length_app. simpl.
    by replace (S (length h + 1) - (length h + 1 + 1))%nat with 0%nat by lia. }
  split; [by rewrite <- !app_assoc, lookup_app_l|].
  split; [done|]. split; [done|]. split.
  - intros Hj0. unfold t, encode_value. subst lv. rewrite Hj0. reflexivity.
  - intros row p x y _ Hjp Hx Hy. unfold splice_row_negative.
    rewrite Hjp in *. rewrite Hx, Hy.
    assert (Hl : length (take p row) = p).
    { rewrite length_take. apply lookup_lt_Some in Hy. lia. }
    split.
    + rewrite lookup_app_r by lia. rewrite Hl.
      rewrite lookup_app_r by (rewrite length_indicators; lia).
      rewrite length_indicators.
      by replace (p + length lv - p - length lv)%nat with 0%nat by lia.
    + unfold indicator_block. rewrite drop_app_length' by done.
      apply take_app_length'. by rewrite length_indicators.
Qed.

Lemma one_hot_encode_negative_index_witness :
  let a := Array2 3 [[CStr "a"; CInt 5; CStr "x"]; [CStr "b"; CInt 6; CStr "y"]] in
  ∃ h' r t,
    one_hot_encode 0 [-1]%Z false [a] = (Ok r, h') ∧
    h' !! r = Some t ∧
    rows t = [[CStr "a"; CInt 1; CInt 0; CInt 5]; [CStr "b"; CInt 0; CInt 1; CInt 6]].
Proof.
  intros a.
  assert (Hwf : wf a) by (repeat constructor).
  assert (Hne : rows a ≠ []) by discriminate.
  assert (Hi : (- Z.of_nat (ncols a) ≤ -1 < 0)%Z) by (simpl; lia).
  destruct (one_hot_encode_negative_index 0 a (-1)%Z false [a] eq_refl Hwf Hne Hi
              eq_refl)
    as (h' & r & t & H1 & H2 & _ & _ & H5 & _).
  exists h', r, t. split; [exact H1|]. split; [exact H2|].
  rewrite H5. vm_compute. reflexivity.
Defined.

(** ** The encoder: a column with one value *)

Lemma sortable_single (col : list cell) (v : cell) :
  Forall (fun x => x = v) col → sortable col = true.
Proof.
  intros Hall. unfold sortable. apply orb_true_iff.
  destruct v as [z|s]; [left|right]; apply forallb_forall; intros x Hx;
    apply list_elem_of_In in Hx; rewrite Forall_forall in Hall;
    by rewrite (Hall x Hx).
Qed.

Lemma unique_values_single (col : list cell) (v : cell) :
  col ≠ [] → Forall (fun x => x = v) col → unique_values col = [v].
Proof.
  intros Hne Hall. rewrite Forall_forall in Hall.
  destruct (unique_values_spec col) as (Hs & He & _).
  apply cell_lt_sorted_NoDup in Hs.
  destruct (unique_values col) as [|x [|y l]].
  - destruct col as [|x col]; [done|].
    exfalso. apply (not_elem_of_nil x). apply He, list_elem_of_here.
  - f_equal. apply Hall, He, list_elem_of_here.
  - exfalso. apply NoDup_cons in Hs as [Hx _]. apply Hx.
    assert (x = v) as -> by (apply Hall, He, list_elem_of_here).
    assert (y = v) as ->
      by (apply Hall, He, list_elem_of_further, list_elem_of_here).
    apply list_elem_of_here.
Qed.

Lemma column_single (a : array2 cell) (c : nat) (v : cell) :
  Forall (fun row => row !! c = Some v) (rows a) →
  column c a = repeat v (nrows a).
Proof.
  unfold column, nrows. induction 1 as [|row rs Hrow _ IH]; [done|].
  cbn [omap list_omap length repeat]. by rewrite Hrow, IH.
Qed.

(** X26: a designated column whose cells all hold the same value has
    one level.  Without [drop_first] it is replaced by a column of 1s;
    with [drop_first] the only level is dropped and the column simply
    disappears from the table. *)
Theorem one_hot_encode_single_valued_column (X : ref) (a : array2 cell) (c : nat)
    (v : cell) (drop_first : bool) (h : heap) :
  h !! X = Some a → wf a → rows a ≠ [] →
  Forall (fun row => row !! c = Some v) (rows a) →
  ∃ h' r t,
    one_hot_encode X [Z.of_nat c] drop_first h = (Ok r, h') ∧
    h' !! r = Some t ∧
    t = if drop_first
        then Array2 (ncols a - 1) (map (delete c) (rows a))
        else Array2 (ncols a) (map (fun row => <[c := CInt 1]> row) (rows a)).
Proof.
  intros HX Hwf Hne Hall.
  assert (Hc : (c < ncols a)%nat).
  { destruct (rows a) as [|row rs] eqn:Hrows; [done|].
    apply Forall_cons in Hall as [Hrow _]. apply lookup_lt_Some in Hrow.
    unfold wf in Hwf. rewrite Hrows in Hwf.
    apply Forall_cons in Hwf as [Hlen _]. lia. }
  pose proof (column_single a c v Hall) as Hcol.
  assert (Hn : (0 < nrows a)%nat).
  { unfold nrows. destruct (rows a); [done|simpl; lia]. }
  assert (Hs : sortable (column c a) = true).
  { apply (sortable_single _ v). rewrite Hcol. apply Forall_forall.
    intros x Hx. by apply list_elem_of_In, repeat_spec in Hx. }
  assert (Hu : unique_values (column c a) = [v]).
  { apply unique_values_single.
    - rewrite Hcol. destruct (nrows a); [lia|done].
    - rewrite Hcol. apply Forall_forall.
      intros x Hx. by apply list_elem_of_In, repeat_spec in Hx. }
  destruct (one_hot_encode_value X a [Z.of_nat c] drop_first h HX Hwf Hne)
    as (ext & r & Hrun & Hlook & _).
  { rewrite sorted_reverse_singleton. cbn [steps_ok]. rewrite Nat2Z.id.
    split; [lia|done]. }
  rewrite sorted_reverse_singleton in Hlook. cbn [encode_all] in Hlook.
  rewrite Nat2Z.id in Hlook.
  exists (h ++ ext), r, (encode_value drop_first a c).
  split; [done|]. split; [done|].
  unfold encode_value, levels. rewrite Hu.
  unfold wf in Hwf. rewrite Forall_forall in Hwf, Hall.
  destruct drop_first; cbn [drop length].
  - f_equal; [lia|]. apply map_ext_in. intros row Hrow.
    apply list_elem_of_In in Hrow.
    unfold splice_row. rewrite (Hall row Hrow).
    by rewrite delete_take_drop.
  - f_equal; [lia|]. apply map_ext_in. intros row Hrow.
    apply list_elem_of_In in Hrow.
    unfold splice_row. rewrite (Hall row Hrow).
    unfold indicators, py_eq. cbn [map]. rewrite bool_decide_eq_true_2 by done.
    symmetry. apply insert_take_drop. rewrite (Hwf row Hrow). lia.
Qed.

Lemma one_hot_encode_single_valued_column_witness :
  let a := Array2 2 [[CInt 3; CStr "es"]; [CInt 4; CStr "es"]] in
  ∃ h' r t,
    one_hot_encode 0 [Z.of_nat 1] true [a] = (Ok r, h') ∧
    h' !! r = Some t ∧
    t = Array2 1 [[CInt 3]; [CInt 4]].
Proof.
  intros a.
  apply (one_hot_encode_single_valued_column 0 a 1 (CStr "es") true [a] eq_refl).
  - repeat constructor.
  - discriminate.
  - repeat constructor.
Defined.

(** ** The encoder: what the indicators keep *)

Lemma indicators_inj_level (lv : list cell) (x y : cell) :
  x ∈ lv → indicators lv x = indicators lv y → x = y.
Proof.
  induction lv as [|v lv IH]; intros Hx Heq; [by apply elem_of_nil in Hx|].
  cbn [indicators map] in Heq. injection Heq as Hhd Htl.
  apply elem_of_cons in Hx as [->|Hx]; [|by apply IH].
  unfold py_eq in Hhd. rewrite bool_decide_eq_true_2 in Hhd by done.
  destruct (decide (y = v)) as [->|Hne]; [done|].
  rewrite bool_decide_eq_false_2 in Hhd by done. discriminate.
Qed.

(** X27: the encoding loses nothing.  Two cells of a column with
    different values get different rows of indicators, also with
    [drop_first], where the first value has no indicator of its own. *)
Theorem indicators_distinguish_values (col u : list cell) (drop_first : bool)
    (x y : cell) :
  np_unique col = Ok u →
  x ∈ col → y ∈ col → x ≠ y →
  let kept := if drop_first then drop 1 u else u in
  indicators kept x ≠ indicators kept y.
Proof.
  intros Hu Hx Hy Hxy lv Heq. apply Hxy.
  unfold np_unique in Hu. destruct (sortable col); [|discriminate].
  injection Hu as <-. fold (unique_values col) in *.
  destruct (unique_values_spec col) as (_ & He & _).
  apply He in Hx, Hy. subst lv.
  destruct drop_first.
  - destruct (unique_values col) as [|v t]; [by apply elem_of_nil in Hx|].
    cbn [drop] in Heq.
    apply elem_of_cons in Hx as [->|Hx]; [|by apply (indicators_inj_level t)].
    apply elem_of_cons in Hy as [->|Hy]; [done|].
    symmetry. by apply (indicators_inj_level t).
  - by apply (indicators_inj_level (unique_values col)).
Qed.

Lemma indicators_distinguish_values_witness :
  indicators (drop 1 [CStr "a"; CStr "b"; CStr "c"]) (CStr "a") ≠
  indicators (drop 1 [CStr "a"; CStr "b"; CStr "c"]) (CStr "c").
Proof.
  apply (indicators_distinguish_values
           [CStr "c"; CStr "a"; CStr "b"; CStr "a"]
           [CStr "a"; CStr "b"; CStr "c"] true (CStr "a") (CStr "c")).
  - reflexivity.
  - apply list_elem_of_further, list_elem_of_here.
  - apply list_elem_of_here.
  - discriminate.
Defined.

(** ** The encoder: the shape of the result *)

(** The table [one_hot_encode] returns, row by row. *)
Lemma one_hot_encode_rows (X : ref) (a : array2 cell)
    (categorical_indices : list Z) (drop_first : bool) (h : heap) :
  h !! X = Some a → wf a → rows a ≠ [] →
  NoDup categorical_indices →
  Forall (fun i => (0 ≤ i < Z.of_nat (ncols a))%Z) categorical_indices →
  Forall (fun i => sortable (column (Z.to_nat i) a) = true) categorical_indices →
  ∃ ext r t,
    one_hot_encode X categorical_indices drop_first h = (Ok r, h ++ ext) ∧
    (h ++ ext) !! r = Some t ∧ (length h ≤ r)%nat ∧ wf t ∧
    t = encode_all drop_first a (sorted_reverse categorical_indices) ∧
    steps_ok drop_first a (sorted_reverse categorical_indices) ∧
    rows t = map (expand (designated drop_first a categorical_indices) 0) (rows a).
Proof.
  intros HX Hwf Hne Hnd Hv Hsort.
  set (s := sorted_reverse categorical_indices).
  assert (Hperm : s ≡ₚ categorical_indices) by apply sorted_reverse_perm.
  destruct (encode_all_spec drop_first s a Hwf) as (Hok & Hwft & Hrows).
  { by apply sorted_reverse_strict. }
  { by rewrite Hperm. }
  { by rewrite Hperm. }
  destruct (one_hot_encode_value X a categorical_indices drop_first h HX Hwf Hne Hok)
    as (ext & r & Hrun & Hlook & Hr).
  exists ext, r, (encode_all drop_first a s).
  repeat (split; [done|]).
  rewrite Hrows. apply map_ext. intros row. apply expand_ext. intros p _.
  unfold designated.
  destruct (decide (Z.of_nat p ∈ categorical_indices)) as [Hin|Hnin].
  - rewrite !bool_decide_eq_true_2; [done|done|by rewrite Hperm].
  - rewrite !bool_decide_eq_false_2; [done|done|by rewrite Hperm].
Qed.

Lemma position_from_ge L (off n : nat) :
  (∀ p, (off ≤ p < off + n)%nat → (1 ≤ width (L p))%nat) →
  (n ≤ position_from L off n)%nat.
Proof.
  revert off. induction n as [|n IH]; intros off HL; [done|].
  cbn [position_from]. pose proof (HL off ltac:(lia)).
  specialize (IH (S off) ltac:(intros p Hp; apply HL; lia)). lia.
Qed.

Lemma unique_values_nonempty (col : list cell) :
  col ≠ [] → (1 ≤ length (unique_values col))%nat.
Proof.
  intros Hne. destruct (unique_values_spec col) as (_ & He & _).
  destruct col as [|x col]; [done|].
  assert (Hx : x ∈ unique_values (x :: col)) by apply He, list_elem_of_here.
  destruct (unique_values (x :: col)); [by apply elem_of_nil in Hx|simpl; lia].
Qed.

(** X28: the result has the rows of the input, one for one, and as many
    columns as the widths of the input's columns add up to: 1 for a
    column that is not designated, the number of its levels for one
    that is.  Without [drop_first] every designated column has at least
    one level, so the table never gets narrower. *)
Theorem one_hot_encode_shape (X : ref) (a : array2 cell)
    (categorical_indices : list Z) (drop_first : bool) (h : heap) :
  h !! X = Some a → wf a → rows a ≠ [] →
  NoDup categorical_indices →
  Forall (fun i => (0 ≤ i < Z.of_nat (ncols a))%Z) categorical_indices →
  Forall (fun i => sortable (column (Z.to_nat i) a) = true) categorical_indices →
  let L := designated drop_first a categorical_indices in
  ∃ h' r t,
    one_hot_encode X categorical_indices drop_first h = (Ok r, h') ∧
    h' !! r = Some t ∧
    nrows t = nrows a ∧
    ncols t = column_position L (ncols a) ∧
    (drop_first = false → (ncols a ≤ ncols t)%nat).
Proof.
  intros HX Hwf Hne Hnd Hv Hsort L.
  destruct (one_hot_encode_rows X a categorical_indices drop_first h
              HX Hwf Hne Hnd Hv Hsort)
    as (ext & r & t & Hrun & Hlook & _ & Hwft & _ & _ & Hrows).
  fold L in Hrows.
  assert (Hcols : ncols t = column_position L (ncols a)).
  { unfold wf in Hwf, Hwft. rewrite Hrows in Hwft.
    destruct (rows a) as [|row rs]; [done|].
    apply Forall_cons in Hwf as [Hlen _].
    cbn [map] in Hwft. apply Forall_cons in Hwft as [Hlent _].
    rewrite length_expand, Hlen in Hlent. done. }
  exists (h ++ ext), r, t.
  split; [done|]. split; [done|].
  split; [by unfold nrows; rewrite Hrows, length_map|].
  split; [done|].
  intros Hd. rewrite Hcols. apply position_from_ge.
  intros p Hp. unfold L, designated.
  destruct (bool_decide (Z.of_nat p ∈ categorical_indices)); [|done].
  cbn [width]. unfold levels. rewrite Hd.
  apply unique_values_nonempty.
  pose proof (length_column p a Hwf ltac:(lia)) as Hl. unfold nrows in Hl.
  destruct (column p a); [|done].
  destruct (rows a); [done|simpl in Hl; lia].
Qed.

Lemma one_hot_encode_shape_witness :
  let a := Array2 3 [[CStr "b"; CInt 7; CStr "x"]; [CStr "a"; CInt 8; CStr "y"]] in
  ∃ h' r t,
    one_hot_encode 0 [0; 2]%Z false [a] = (Ok r, h') ∧
    h' !! r = Some t ∧
    nrows t = 2%nat ∧ ncols t = 5%nat.
Proof.
  intros a.
  assert (Hwf : wf a) by (repeat constructor).
  assert (Hne : rows a ≠ []) by discriminate.
  assert (Hnd : NoDup [0; 2]%Z).
  { apply NoDup_cons. split; [|apply NoDup_singleton].
    rewrite list_elem_of_singleton. discriminate. }
  assert (Hv : Forall (fun i => (0 ≤ i < Z.of_nat (ncols a))%Z) [0; 2]%Z).
  { repeat constructor; simpl; lia. }
  assert (Hs : Forall (fun i => sortable (column (Z.to_nat i) a) = true) [0; 2]%Z).
  { repeat constructor. }
  destruct (one_hot_encode_shape 0 a [0; 2]%Z false [a] eq_refl Hwf Hne Hnd Hv Hs)
    as (h' & r & t & H1 & H2 & H3 & H4 & _).
  exists h', r, t. split; [exact H1|]. split; [exact H2|].
  split; [exact H3|]. rewrite H4. vm_compute. reflexivity.
Defined.

(** ** The encoder: one call or two *)

Lemma encode_all_app (drop_first : bool) (l1 l2 : list Z) :
  ∀ a, encode_all drop_first a (l1 ++ l2) =
       encode_all drop_first (encode_all drop_first a l1) l2.
Proof. induction l1 as [|i l1 IH]; intros a; [done|]. cbn [app encode_all]. apply IH. Qed.

Lemma steps_ok_app (drop_first : bool) (l1 l2 : list Z) :
  ∀ a, steps_ok drop_first a (l1 ++ l2) →
       steps_ok drop_first a l1 ∧
       steps_ok drop_first (encode_all drop_first a l1) l2.
Proof.
  induction l1 as [|i l1 IH]; intros a Hok; [done|].
  cbn [app steps_ok encode_all] in *. destruct Hok as (Hi & Hs & Hok).
  destruct (IH _ Hok) as [H1 H2]. done.
Qed.

Lemma encode_all_wf (drop_first : bool) (l : list Z) :
  ∀ a, wf a → rows a ≠ [] → steps_ok drop_first a l →
       wf (encode_all drop_first a l) ∧ rows (encode_all drop_first a l) ≠ [].
Proof.
  induction l as [|i l IH]; intros a Hwf Hne Hok; [done|].
  cbn [steps_ok encode_all] in *. destruct Hok as (Hi & Hs & Hok).
  apply IH; [apply wf_encode_value; [done|lia]| |done].
  by apply rows_encode_value_nonempty.
Qed.

(** Sorting a list whose front part lies above its back part sorts the
    two parts on their own. *)
Lemma sorted_reverse_app (hi lo : list Z) :
  (∀ i j, i ∈ hi → j ∈ lo → (j < i)%Z) →
  sorted_reverse (hi ++ lo) = sorted_reverse hi ++ sorted_reverse lo.
Proof.
  intros Hlt. apply (StronglySorted_unique Z.ge).
  - apply sorted_reverse_sorted.
  - apply StronglySorted_app_2; try apply sorted_reverse_sorted.
    intros i j Hi Hj. rewrite sorted_reverse_perm in Hi, Hj.
    specialize (Hlt i j Hi Hj). lia.
  - by rewrite !sorted_reverse_perm.
Qed.

(** X29: the columns can be encoded in two calls, provided the larger
    indices go first: encoding the indices [hi] and then, on the
    result, the indices [lo], all of them smaller, returns the same
    table as one call with all the indices. *)
Theorem one_hot_encode_in_two_calls (X : ref) (a : array2 cell)
    (hi lo : list Z) (drop_first : bool) (h : heap) :
  h !! X = Some a → wf a → rows a ≠ [] →
  NoDup (hi ++ lo) →
  Forall (fun i => (0 ≤ i < Z.of_nat (ncols a))%Z) (hi ++ lo) →
  Forall (fun i => sortable (column (Z.to_nat i) a) = true) (hi ++ lo) →
  (∀ i j, i ∈ hi → j ∈ lo → (j < i)%Z) →
  ∃ r h1 t,
    one_hot_encode X (hi ++ lo) drop_first h = (Ok r, h1) ∧
    h1 !! r = Some t ∧
    ∃ r1 h2 r2 h3,
      one_hot_encode X hi drop_first h = (Ok r1, h2) ∧
      one_hot_encode r1 lo drop_first h2 = (Ok r2, h3) ∧
      h3 !! r2 = Some t ∧ h3 !! X = Some a.
Proof.
  intros HX Hwf Hne Hnd Hv Hsort Hlt.
  destruct (one_hot_encode_rows X a (hi ++ lo) drop_first h
              HX Hwf Hne Hnd Hv Hsort)
    as (ext & r & t & Hrun & Hlook & _ & _ & Ht & Hok & _).
  rewrite (sorted_reverse_app hi lo Hlt) in Ht, Hok.
  apply steps_ok_app in Hok as [Hok1 Hok2].
  rewrite encode_all_app in Ht.
  destruct (encode_all_wf drop_first _ a Hwf Hne Hok1) as [Hwf1 Hne1].
  destruct (one_hot_encode_value X a hi drop_first h HX Hwf Hne Hok1)
    as (ext1 & r1 & Hrun1 & Hlook1 & _).
  destruct (one_hot_encode_value r1 _ lo drop_first (h ++ ext1) Hlook1 Hwf1 Hne1 Hok2)
    as (ext2 & r2 & Hrun2 & Hlook2 & _).
  exists r, (h ++ ext), t. split; [done|]. split; [done|].
  exists r1, (h ++ ext1), r2, ((h ++ ext1) ++ ext2).
  split; [done|]. split; [done|]. split; [by rewrite Ht|].
  rewrite <- app_assoc. by rewrite lookup_app_l by (by eapply lookup_lt_Some).
Qed.

Lemma one_hot_encode_in_two_calls_witness :
  let a := Array2 3 [[CStr "b"; CInt 7; CStr "x"]; [CStr "a"; CInt 8; CStr "y"]] in
  ∃ r h1 t,
    one_hot_encode 0 ([2] ++ [0])%Z false [a] = (Ok r, h1) ∧
    h1 !! r = Some t ∧
    ∃ r1 h2 r2 h3,
      one_hot_encode 0 [2]%Z false [a] = (Ok r1, h2) ∧
      one_hot_encode r1 [0]%Z false h2 = (Ok r2, h3) ∧
      h3 !! r2 = Some t ∧ h3 !! 0%nat = Some a.
Proof.
  intros a.
  apply (one_hot_encode_in_two_calls 0 a [2]%Z [0]%Z false [a] eq_refl).
  - repeat constructor.
  - discriminate.
  - apply NoDup_cons. split; [|apply NoDup_singleton].
    rewrite list_elem_of_singleton. discriminate.
  - repeat constructor; simpl; lia.
  - repeat constructor.
  - intros i j Hi Hj.
    apply list_elem_of_singleton in Hi. apply list_elem_of_singleton in Hj. lia.
Defined.

(** ** The regressor before its first fit *)

Section NeverFitted.
Local Open Scope R_scope.

Lemma predict_not_fitted (X : ndarray R) (w : world) :
  coefficients (self w) = None ∨ intercept (self w) = None →
  predict X w = (Raise (ValueError "Model is not yet fitted"), w).
Proof.
  unfold predict. intros [H|H]; rewrite H; [done|].
  by destruct (coefficients (self w)).
Qed.

(** Only gradient descent assigns before it can fail: a call of [fit]
    with any other method string that raises has changed nothing. *)
Lemma fit_raise_keeps_state (X : ndarray R) (y : list R) (method : string)
    (learning_rate : R) (iterations : Z) (w w' : world) (e : exn) :
  method ≠ "gradient_descent" →
  fit X y method learning_rate iterations w = (Raise e, w') →
  w' = w.
Proof.
  intros Hgd. destruct (decide (method = "least_squares")) as [->|Hls].
  - unfold fit. simpl negb. cbv iota.
    change (bool_decide ("least_squares" = "least_squares")) with true. cbv iota.
    unfold fit_multiple, mbind, ST_bind, lift.
    destruct (matmul _ _) as [g|]; [|intros [= _ <-]; done].
    destruct (linalg_inv g) as [gi|]; [|intros [= _ <-]; done].
    destruct (matmul gi _) as [p|]; [|intros [= _ <-]; done].
    destruct (matvec p y) as [beta|]; [|intros [= _ <-]; done].
    destruct (item beta 0) as [b|]; [|intros [= _ <-]; done].
    unfold set_intercept, set_coefficients. discriminate.
  - unfold fit. rewrite (method_not_available method Hls Hgd).
    simpl negb. cbv iota. unfold lift. by intros [= _ <-].
Qed.

(** C7 (as amended): a regressor that was constructed and on which
    every call of [fit] made so far raised, none of them a
    gradient-descent fit, has neither coefficients nor intercept, and
    [predict] on it raises the not-fitted ValueError for every input,
    leaving everything as it was. *)
Theorem predict_never_fitted (X : ndarray R) (w : world) :
  never_fitted w →
  coefficients (self w) = None ∧ intercept (self w) = None ∧
  predict X w = (Raise (ValueError "Model is not yet fitted"), w).
Proof.
  induction 1 as [r out|c e w w' _ IH Hm Hrun].
  - split; [reflexivity|]. split; [reflexivity|].
    apply predict_not_fitted. by left.
  - unfold run_fit in Hrun.
    by rewrite (fit_raise_keeps_state _ _ _ _ _ _ _ _ Hm Hrun).
Qed.

Lemma predict_never_fitted_witness :
  let w := World init (fun _ => 0) [] in
  coefficients (self w) = None ∧ intercept (self w) = None ∧
  predict (Nd1 [1; 2]) w = (Raise (ValueError "Model is not yet fitted"), w).
Proof.
  intros w. apply predict_never_fitted.
  apply (never_fitted_failed
           (FitCall (Nd2 (Array2 1 [])) [] "least_squares" 0.01 1000)
           LinAlgError w w).
  - apply (never_fitted_failed
             (FitCall (Nd1 [1; 2]) [3; 5] "bogus" 0.01 1000)
             (ValueError "Method bogus not available for training linear regression.")
             w w).
    + apply never_fitted_fresh.
    + discriminate.
    + reflexivity.
  - discriminate.
  - unfold run_fit. cbn [call_X call_y call_method call_learning_rate call_iterations].
    destruct (gram_rows (insert_ones (Array2 1 []))) as (g & Hg & _).
    apply (fit_least_squares_singular (Nd2 (Array2 1 [])) [] _ _ w g Hg).
    destruct (gram_no_rows (Array2 1 []) g eq_refl Hg) as [rest Hr].
    exact (no_inverse_zero_row g _ rest Hr).
Defined.

(** C7 (as stated) fails after a gradient-descent fit that raised: on a
    new regressor, [fit] with a [y] of the wrong length raises in the
    first pass of its loop, after coefficients and intercept were
    assigned; no call of [fit] has succeeded, and [predict] returns
    predictions instead of raising. *)
Lemma predict_after_failed_gradient_descent :
  let w := World init (fun _ => 0) [] in
  let a := Array2 1 [[1]; [2]] in
  ∃ w',
    fit (Nd2 a) [1; 2; 3] "gradient_descent" 0.01 1000 w = (Raise ShapeError, w') ∧
    predict (Nd2 a) w' = (Ok [0; 0], w').
Proof.
  intros w a. exists (initial_world w 1). split.
  - rewrite fit_gradient_descent_unfold, (range_pos 1000) by lia.
    change (ncols a) with 1%nat.
    cbn [for_each]. unfold mbind at 1, ST_bind at 1.
    unfold gradient_step. rewrite cols_from_insert_ones.
    unfold mbind at 1, ST_bind at 1.
    rewrite (predict_2d a (initial_coefficients w 1) (initial_intercept w 1)
               (initial_world w 1) eq_refl eq_refl).
    unfold mbind at 1, ST_bind at 1, lift at 1.
    rewrite broadcast2_mismatch; [done|simpl; lia..].
  - rewrite (predict_2d a (initial_coefficients w 1) (initial_intercept w 1)
               (initial_world w 1) eq_refl eq_refl).
    do 2 f_equal. unfold initial_intercept, initial_coefficients, dot. cbn.
    repeat (f_equal; try lra).
Qed.
End NeverFitted.

(** ** Least squares: what a fit that returns has stored *)

Section LeastSquaresStored.
Local Open Scope R_scope.

Lemma nrows_transpose {A} (a : array2 A) : nrows (transpose a) = ncols a.
Proof. unfold nrows, transpose. simpl. by rewrite length_map, length_seq. Qed.

Lemma nrows_identity (n : nat) : nrows (identity n) = n.
Proof. unfold nrows, identity. simpl. by rewrite length_map, length_seq. Qed.

Lemma nrows_insert_ones (a : array2 R) : nrows (insert_ones a) = nrows a.
Proof. unfold nrows, insert_ones. cbn [rows]. by rewrite length_map. Qed.

(** X30: a least-squares fit that returns has found a [y] with one
    entry per row of [X], and has stored an intercept together with one
    coefficient per feature column; the generator and the output are as
    before. *)
Theorem least_squares_stores_both (X : ndarray R) (y : list R)
    (learning_rate : R) (iterations : Z) (w w' : world) :
  fit X y "least_squares" learning_rate iterations w = (Ok (), w') →
  nrows (as_2d X) = length y ∧
  ∃ b c, w' = World (Regressor (Some c) (Some b)) (rng w) (stdout w) ∧
         length c = ncols (as_2d X).
Proof.
  set (X_bias := insert_ones (as_2d X)).
  unfold fit. simpl negb. cbv iota.
  change (bool_decide ("least_squares" = "least_squares")) with true. cbv iota.
  change (insert_ones _) with X_bias.
  unfold fit_multiple, mbind, ST_bind, lift.
  destruct (matmul (transpose X_bias) X_bias) as [g|] eqn:Hg; [|discriminate].
  destruct (linalg_inv_cases g) as [Hlin|(gi & Hlin & Hgi)]; rewrite Hlin;
    [discriminate|].
  destruct (matmul gi (transpose X_bias)) as [p|] eqn:Hp; [|discriminate].
  destruct (matvec p y) as [beta|] eqn:Hb; [|discriminate].
  destruct (item beta 0) as [b0|] eqn:Hi; [|discriminate].
  unfold set_intercept, set_coefficients. cbn [self rng stdout coefficients intercept].
  intros [= <-].
  destruct Hgi as (_ & _ & _ & Hl).
  apply matmul_shape in Hl as (_ & _ & Hlr). rewrite nrows_identity in Hlr.
  apply matmul_shape in Hg as (_ & _ & Hgr). rewrite nrows_transpose in Hgr.
  apply matmul_shape in Hp as (_ & Hpc & Hpr).
  unfold matvec in Hb. destruct (decide (ncols p = length y)) as [Hy|]; [|discriminate].
  injection Hb as <-.
  split.
  - rewrite <- Hy, Hpc. unfold transpose. cbn [ncols].
    symmetry. apply nrows_insert_ones.
  - unfold item in Hi.
    destruct (map (fun r => dot r y) (rows p)) as [|b1 rest] eqn:Hbeta; [discriminate|].
    injection Hi as <-. exists b1, rest. split; [reflexivity|].
    assert (Hlen : length (b1 :: rest) = S (ncols (as_2d X))).
    { rewrite <- Hbeta, length_map. fold (nrows p). rewrite Hpr, <- Hlr, Hgr.
      reflexivity. }
    simpl in Hlen. lia.
Qed.

Lemma gram_two_points :
  matmul (transpose (insert_ones (as_2d (Nd1 [0; 1]))))
         (insert_ones (as_2d (Nd1 [0; 1]))) =
  Ok (Array2 2 [[2; 1]; [1; 1]]).
Proof.
  unfold matmul. rewrite decide_True by reflexivity.
  do 2 f_equal. cbn. unfold dot. cbn. repeat (f_equal; try lra).
Qed.

Lemma gram_two_points_inverse :
  is_inverse (Array2 2 [[2; 1]; [1; 1]]) (Array2 2 [[1; -1]; [-1; 2]]).
Proof.
  split; [reflexivity|]. split; [repeat constructor|].
  split; unfold matmul; (rewrite decide_True by reflexivity);
    unfold identity, dot; cbn; do 2 f_equal; repeat (f_equal; try lra).
Qed.

(** On the two points (0, 1) and (1, 3) the least-squares fit returns. *)
Lemma fit_two_points_returns (w : world) :
  ∃ w', fit (Nd1 [0; 1]) [1; 3] "least_squares" 0.01 1000 w = (Ok (), w').
Proof.
  set (X_bias := insert_ones (as_2d (Nd1 [0; 1]))).
  set (g := Array2 2 [[2; 1]; [1; 1]]).
  assert (Hg : matmul (transpose X_bias) X_bias = Ok g) by exact gram_two_points.
  destruct (linalg_inv_cases g) as [Hlin|(gi & Hlin & Hgi)].
  { unfold linalg_inv in Hlin.
    destruct (excluded_middle_informative _) as [H|H]; [discriminate|].
    destruct H. eexists. exact gram_two_points_inverse. }
  destruct Hgi as (_ & _ & _ & Hl).
  apply matmul_shape in Hl as (Hlc & _ & Hlr).
  destruct (matmul gi (transpose X_bias)) as [p|e] eqn:Hp.
  2:{ unfold matmul in Hp. rewrite decide_True in Hp; [discriminate|].
      rewrite Hlc. reflexivity. }
  pose proof (matmul_shape _ _ _ Hp) as (_ & Hpc & Hpr).
  assert (Hmv : matvec p [1; 3] = Ok (map (fun r => dot r [1; 3]) (rows p))).
  { unfold matvec. rewrite decide_True; [done|]. rewrite Hpc. reflexivity. }
  assert (Hlen : length (map (fun r => dot r [1; 3]) (rows p)) = 2%nat).
  { rewrite length_map. fold (nrows p). rewrite Hpr, <- Hlr. reflexivity. }
  unfold fit. simpl negb. cbv iota.
  change (bool_decide ("least_squares" = "least_squares")) with true. cbv iota.
  change (insert_ones _) with X_bias.
  unfold fit_multiple, mbind, ST_bind, lift.
  rewrite Hg, Hlin, Hp, Hmv.
  destruct (map (fun r => dot r [1; 3]) (rows p)) as [|b0 cs]; [discriminate|].
  by eexists.
Qed.

Lemma least_squares_stores_both_witness :
  let w := World init (fun _ => 0) [] in
  ∃ w' b c,
    fit (Nd1 [0; 1]) [1; 3] "least_squares" 0.01 1000 w = (Ok (), w') ∧
    w' = World (Regressor (Some c) (Some b)) (rng w) (stdout w) ∧
    length c = 1%nat.
Proof.
  intros w.
  destruct (fit_two_points_returns w) as [w' Hfit].
  destruct (least_squares_stores_both (Nd1 [0; 1]) [1; 3] 0.01 1000 w w' Hfit)
    as (_ & b & c & Hw & Hc).
  exists w', b, c. split; [exact Hfit|]. split; [exact Hw|exact Hc].
Defined.
End LeastSquaresStored.
